(** * weed-fs: the needle index and the volume layout

    A shallow embedding of [go/storage/needle_map.go] and
    [topology/volume_layout.go], followed by the properties of the
    specification that concern them.

    Conventions.  A Go [uint64]/[uint32] is a [Z] whose wrap-around is
    written out with [u64]; a Go [int] is a [Z] wrapped by [int_wrap].
    Slice lengths and indexes into the 16 KiB read buffer are [nat].  An
    [os.File] handle is a value threaded through every call; the answers of the
    operating system (short transfers, errors) are read from a script kept
    inside the file value, one entry per system call. *)

From Stdlib Require Import ZArith Lia ZifyNat Ascii String List DecimalString.
From Stdlib.Strings Require Import Byte.
From stdpp Require Import base decidable option list gmap strings.

Local Open Scope Z_scope.

(* ===================================================================== *)
(** ** Machine integers *)
(* ===================================================================== *)

Definition u64 (z : Z) : Z := z mod 2 ^ 64.
Definition u32 (z : Z) : Z := z mod 2 ^ 32.

(** Go's [int] on a 64-bit platform: two's complement wrap-around. *)
Definition int_wrap (z : Z) : Z := (z + 2 ^ 63) mod 2 ^ 64 - 2 ^ 63.

Definition is_u64 (z : Z) : Prop := 0 <= z < 2 ^ 64.
Definition is_u32 (z : Z) : Prop := 0 <= z < 2 ^ 32.

(* ===================================================================== *)
(** ** Bytes and the big-endian codec of package [util] *)
(* ===================================================================== *)

Definition byte_to_Z (b : byte) : Z := Z.of_N (Byte.to_N b).

(** Go's conversion [byte(v)]: the low eight bits. *)
Definition byte_of_Z (z : Z) : byte :=
  match Byte.of_N (Z.to_N (z mod 256)) with
  | Some b => b
  | None => x00
  end.

(** Modelled from the spec: [util.Uint64toBytes], [util.Uint32toBytes],
    [util.BytesToUint64] and [util.BytesToUint32] are not part of the
    excerpt.  The index log stores every integer big-endian and unsigned:
    byte [j] of an [n]-byte field holds [v >> (8 * (n - 1 - j))]. *)
Fixpoint be_encode (n : nat) (v : Z) : list byte :=
  match n with
  | O => []
  | S n' => byte_of_Z (Z.shiftr v (8 * Z.of_nat n')) :: be_encode n' v
  end.

Fixpoint be_decode (bs : list byte) (acc : Z) : Z :=
  match bs with
  | [] => acc
  | b :: bs' => be_decode bs' (Z.shiftl acc 8 + byte_to_Z b)
  end.

Definition Uint64toBytes (v : Z) : list byte := be_encode 8 v.
Definition Uint32toBytes (v : Z) : list byte := be_encode 4 v.
Definition BytesToUint64 (b : list byte) : Z := u64 (be_decode b 0).
Definition BytesToUint32 (b : list byte) : Z := u32 (be_decode b 0).

(* ===================================================================== *)
(** ** Errors *)
(* ===================================================================== *)

(** Go errors are values; [io.EOF] and [io.ErrShortWrite] are sentinels
    compared by identity, the others carry a message. *)
Inductive error : Type :=
  | io_EOF
  | io_ErrShortWrite
  | PathError (msg : string)
  | errorString (msg : string).

Definition Error (e : error) : string :=
  match e with
  | io_EOF => "EOF"
  | io_ErrShortWrite => "short write"
  | PathError msg => msg
  | errorString msg => msg
  end.

Definition is_EOF (e : option error) : bool :=
  match e with
  | Some io_EOF => true
  | _ => false
  end.

(* ===================================================================== *)
(** ** The index file *)
(* ===================================================================== *)

(** What the operating system answers to one call: the whole transfer, a
    transfer cut after [n] bytes, or an error after [n] bytes. *)
Inductive io_outcome : Type :=
  | IoOk
  | IoShort (n : nat)
  | IoErr (n : nat) (msg : string).

Record File : Type := mkFile {
  f_name : string;
  f_data : list byte;
  f_pos : nat;
  f_script : list io_outcome
}.

Definition next_outcome (f : File) : io_outcome * list io_outcome :=
  match f_script f with
  | [] => (IoOk, [])
  | o :: rest => (o, rest)
  end.

(** Bytes [bs] stored at offset [pos]; a gap past the end reads as zeros. *)
Definition write_at (data : list byte) (pos : nat) (bs : list byte) : list byte :=
  take pos data ++ replicate (pos - length data) x00 ++ bs
    ++ drop (pos + length bs) data.

(** [Write] of [os.File]: a transfer of fewer bytes than asked is reported as
    [io.ErrShortWrite], an error of the device as a [PathError]. *)
Definition file_Write (f : File) (b : list byte) : File * (nat * option error) :=
  let '(o, rest) := next_outcome f in
  let n := match o with
           | IoOk => length b
           | IoShort k | IoErr k _ => Nat.min k (length b)
           end in
  let err := match o with
             | IoErr _ msg => Some (PathError msg)
             | _ => if decide (n = length b) then None else Some io_ErrShortWrite
             end in
  (mkFile (f_name f) (write_at (f_data f) (f_pos f) (take n b))
          (f_pos f + n) rest,
   (n, err)).

(** [Seek(0, 1)]: the current position. *)
Definition file_Seek_current (f : File) : File * (nat * option error) :=
  let '(o, rest) := next_outcome f in
  let f' := mkFile (f_name f) (f_data f) (f_pos f) rest in
  match o with
  | IoErr _ msg => (f', (0%nat, Some (PathError msg)))
  | _ => (f', (f_pos f, None))
  end.

(** [Truncate(size)]: changes the length, not the position. *)
Definition file_Truncate (f : File) (size : nat) : File * option error :=
  let '(o, rest) := next_outcome f in
  match o with
  | IoErr _ msg => (mkFile (f_name f) (f_data f) (f_pos f) rest, Some (PathError msg))
  | _ => (mkFile (f_name f)
                 (take size (f_data f) ++ replicate (size - length (f_data f)) x00)
                 (f_pos f) rest,
          None)
  end.

(** [Read] through the [bufio.Reader] that [walkIndexFile] wraps around the
    file, asking for at most [len] bytes.  The buffering is abstracted: a
    call delivers between one and [len] of the bytes that remain (how many
    is the script's choice), [io.EOF] with no byte when none remains, or an
    error with no byte. *)
Definition file_Read (f : File) (len : nat) : File * (list byte * option error) :=
  let '(o, rest) := next_outcome f in
  let avail := (length (f_data f) - f_pos f)%nat in
  match o with
  | IoErr _ msg =>
      (mkFile (f_name f) (f_data f) (f_pos f) rest, ([], Some (PathError msg)))
  | _ =>
      if decide (avail = 0%nat) then
        (mkFile (f_name f) (f_data f) (f_pos f) rest, ([], Some io_EOF))
      else
        let want := match o with
                    | IoShort k => Nat.max 1 k
                    | _ => len
                    end in
        let n := Nat.min len (Nat.min avail want) in
        (mkFile (f_name f) (f_data f) (f_pos f + n) rest,
         (take n (drop (f_pos f) (f_data f)), None))
  end.

(** The rendering of an [os.File] pointer under the verb [%s].  The type
    has no [String] method and its one field is a pointer, a bad operand
    for the verb, so [fmt] prints an ampersand, an opening brace, the
    bad-verb note with the type and the address of that field, and a
    closing brace.  The address is not part of the model; the name of the
    file, the only identity a handle has here, stands in its place. *)
Definition fmt_file (f : File) : string :=
  "&{%!s(" +:+ "*os.file=" +:+ f_name f +:+ ")}".

(* ===================================================================== *)
(** ** The compact map *)
(* ===================================================================== *)

Record NeedleValue : Type := mkNeedleValue {
  Key : Z;
  Offset : Z;
  Size : Z
}.

(** Modelled from the spec: [CompactMap] ([NewCompactMap], [Set], [Get],
    [Delete]) is not part of the excerpt.  It is a map from a 64-bit key
    to one [NeedleValue] with at most one entry per key; [Set] and
    [Delete] return the size of the entry they displace, 0 if there was
    none. *)
Abbreviation CompactMap := (gmap Z NeedleValue).

Definition NewCompactMap : CompactMap := ∅.

Definition oldSize_of (o : option NeedleValue) : Z :=
  match o with
  | Some v => Size v
  | None => 0
  end.

Definition cm_Set (m : CompactMap) (key offset size : Z) : CompactMap * Z :=
  (<[key := mkNeedleValue key offset size]> m, oldSize_of (m !! key)).

Definition cm_Delete (m : CompactMap) (key : Z) : CompactMap * Z :=
  (delete key m, oldSize_of (m !! key)).

Definition cm_Get (m : CompactMap) (key : Z) : option NeedleValue := m !! key.

(* ===================================================================== *)
(** ** The needle map *)
(* ===================================================================== *)

Record mapMetric : Type := mkMetric {
  DeletionCounter : Z;        (* int *)
  FileCounter : Z;            (* int *)
  DeletionByteCounter : Z;    (* uint64 *)
  FileByteCounter : Z;        (* uint64 *)
  MaximumFileKey : Z          (* uint64 *)
}.

Record NeedleMap : Type := mkNeedleMap {
  indexFile : File;
  m : CompactMap;
  bytes : list byte;          (* transient *)
  metric : mapMetric
}.

Definition NewNeedleMap (file : File) : NeedleMap :=
  mkNeedleMap file NewCompactMap (replicate 16 x00) (mkMetric 0 0 0 0 0).

Definition RowsToRead : nat := 1024.

(** The 16 bytes of one index record. *)
Definition record_bytes (key offset size : Z) : list byte :=
  Uint64toBytes key ++ Uint32toBytes offset ++ Uint32toBytes size.

Definition Put (nm : NeedleMap) (key offset size : Z)
  : NeedleMap * (nat * option error) :=
  let '(m1, oldSize) := cm_Set (m nm) key offset size in
  let bytes1 := record_bytes key offset size in
  let mt := metric nm in
  let fc := int_wrap (FileCounter mt + 1) in
  let fbc := u64 (FileByteCounter mt + size) in
  let '(dc, dbc) :=
    if decide (oldSize > 0)
    then (int_wrap (DeletionCounter mt + 1), u64 (DeletionByteCounter mt + oldSize))
    else (DeletionCounter mt, DeletionByteCounter mt) in
  let '(file1, ret) := file_Write (indexFile nm) bytes1 in
  (mkNeedleMap file1 m1 bytes1 (mkMetric dc fc dbc fbc (MaximumFileKey mt)), ret).

Definition Get (nm : NeedleMap) (key : Z) : option NeedleValue :=
  cm_Get (m nm) key.

Definition Delete (nm : NeedleMap) (key : Z) : NeedleMap * option error :=
  let '(m1, oldSize) := cm_Delete (m nm) key in
  let mt := metric nm in
  let mt1 := mkMetric (DeletionCounter mt) (FileCounter mt)
                      (u64 (DeletionByteCounter mt + oldSize))
                      (FileByteCounter mt) (MaximumFileKey mt) in
  let '(file1, (offset, err)) := file_Seek_current (indexFile nm) in
  match err with
  | Some e =>
      (mkNeedleMap file1 m1 (bytes nm) mt1,
       Some (errorString ("cannot get position of indexfile: " +:+ Error e)))
  | None =>
      let bytes1 := record_bytes key 0 0 in
      let '(file2, (_, werr)) := file_Write file1 bytes1 in
      match werr with
      | Some we =>
          let '(file3, terr) := file_Truncate file2 offset in
          let plus := match terr with
                      | Some te => String "010"%char "couldn't truncate index file: " +:+ Error te
                      | None => ""
                      end in
          (mkNeedleMap file3 m1 bytes1 mt1,
           Some (errorString ("error writing to indexfile " +:+ fmt_file file3
                              +:+ ": " +:+ Error we +:+ plus)))
      | None =>
          (mkNeedleMap file2 m1 bytes1
             (mkMetric (int_wrap (DeletionCounter mt1 + 1)) (FileCounter mt1)
                       (DeletionByteCounter mt1) (FileByteCounter mt1)
                       (MaximumFileKey mt1)),
           None)
      end
  end.

Definition ContentSize (nm : NeedleMap) : Z := FileByteCounter (metric nm).
Definition DeletedSize (nm : NeedleMap) : Z := DeletionByteCounter (metric nm).
Definition FileCount (nm : NeedleMap) : Z := FileCounter (metric nm).
Definition DeletedCount (nm : NeedleMap) : Z := DeletionCounter (metric nm).
Definition MaxFileKey (nm : NeedleMap) : Z := MaximumFileKey (metric nm).

(** The body of [NextFileKey], run on the receiver it is handed: the value
    returned and the receiver as the body leaves it. *)
Definition NextFileKey_body (nm : NeedleMap) (count : Z) : Z * NeedleMap :=
  if decide (count <= 0) then (0, nm)
  else
    let mt := metric nm in
    (MaximumFileKey mt,
     mkNeedleMap (indexFile nm) (m nm) (bytes nm)
       (mkMetric (DeletionCounter mt) (FileCounter mt) (DeletionByteCounter mt)
                 (FileByteCounter mt) (u64 (MaximumFileKey mt + count)))).

(** [func (nm NeedleMap) NextFileKey(count int)]: the receiver is passed by
    value, so the body works on a copy of the caller's struct; the caller
    gets the result and keeps its own [nm]. *)
Definition NextFileKey (nm : NeedleMap) (count : Z) : Z * NeedleMap :=
  let '(ret, _copy) := NextFileKey_body nm count in
  (ret, nm).

(* ===================================================================== *)
(** ** Replaying the index log *)
(* ===================================================================== *)

(** The Go slice expression [l[lo:hi]]. *)
Definition slice {A} (l : list A) (lo hi : nat) : list A := drop lo (take hi l).

Section Walk.
Context {St : Type}.
(** The callback, with the state it closes over made explicit. *)
Variable fn : St -> Z -> Z -> Z -> St * option error.

(** [for i = 0; i+16 <= count; i += 16 { ... }], from the current [i].
    [None] only when the fuel runs out. *)
Fixpoint for_rows (fuel : nat) (bytes : list byte) (count i : nat) (s : St)
  : option (St * nat * option error) :=
  match fuel with
  | O => None
  | S fuel' =>
      if decide (i + 16 <= count)%nat then
        let key := BytesToUint64 (slice bytes i (i + 8)) in
        let offset := BytesToUint32 (slice bytes (i + 8) (i + 12)) in
        let size := BytesToUint32 (slice bytes (i + 12) (i + 16)) in
        match fn s key offset size with
        | (s', Some e) => Some (s', i, Some e)
        | (s', None) => for_rows fuel' bytes count (i + 16)%nat s'
        end
      else Some (s, i, None)
  end.

(** [for count > 0 && e == nil { ... }] and the two lines after it. *)
Fixpoint walk_loop (fuel : nat) (r : File) (bytes : list byte) (count : nat)
  (e : option error) (s : St) : option (File * St * option error) :=
  match fuel with
  | O => None
  | S fuel' =>
      if decide ((0 < count)%nat ∧ e = None) then
        match for_rows (S count) bytes count 0 s with
        | None => None
        | Some (s1, _, Some err) => Some (r, s1, Some err)
        | Some (s1, i, None) =>
            if decide (count mod 16 ≠ 0)%nat then
              (* copy(bytes[:count-i], bytes[i:count]) *)
              let src := slice bytes i count in
              let n := Nat.min (count - i) (length src) in
              let bytes1 := take n src ++ drop n bytes in
              let i1 := (count - i)%nat in
              (* count, e = br.Read(bytes[i:]) *)
              let '(r1, (chunk, e1)) := file_Read r (length bytes1 - i1) in
              let bytes2 := take i1 bytes1 ++ chunk
                              ++ drop (i1 + length chunk) bytes1 in
              walk_loop fuel' r1 bytes2 (length chunk + i1) e1 s1
            else
              let '(r1, (chunk, e1)) := file_Read r (length bytes) in
              let bytes2 := chunk ++ drop (length chunk) bytes in
              walk_loop fuel' r1 bytes2 (length chunk) e1 s1
        end
      else if is_EOF e then Some (r, s, None) else Some (r, s, e)
  end.

(** [walkIndexFile].  Every turn of the outer loop but the last consumes
    at least one byte of the file, so two more turns than the file has
    bytes are always enough. *)
Definition walkIndexFile (r : File) (s : St) : option (File * St * option error) :=
  let bytes := replicate (16 * RowsToRead) x00 in
  let '(r1, (chunk, e)) := file_Read r (length bytes) in
  let bytes1 := chunk ++ drop (length chunk) bytes in
  walk_loop (length (f_data r) + 2) r1 bytes1 (length chunk) e s.
End Walk.

(** The closure that [LoadNeedleMap] hands to [walkIndexFile]. *)
Definition load_record (nm : NeedleMap) (key offset size : Z)
  : NeedleMap * option error :=
  let mt := metric nm in
  let mfk := if decide (key > MaximumFileKey mt) then key else MaximumFileKey mt in
  let fc := int_wrap (FileCounter mt + 1) in
  let fbc := u64 (FileByteCounter mt + size) in
  if decide (offset > 0) then
    let '(m1, oldSize) := cm_Set (m nm) key offset size in
    let '(dc, dbc) :=
      if decide (oldSize > 0)
      then (int_wrap (DeletionCounter mt + 1), u64 (DeletionByteCounter mt + oldSize))
      else (DeletionCounter mt, DeletionByteCounter mt) in
    (mkNeedleMap (indexFile nm) m1 (bytes nm) (mkMetric dc fc dbc fbc mfk), None)
  else
    let '(m1, oldSize) := cm_Delete (m nm) key in
    (mkNeedleMap (indexFile nm) m1 (bytes nm)
       (mkMetric (int_wrap (DeletionCounter mt + 1)) fc
                 (u64 (DeletionByteCounter mt + oldSize)) fbc mfk),
     None).

Definition LoadNeedleMap (file : File) : option (NeedleMap * option error) :=
  let nm := NewNeedleMap file in
  match walkIndexFile load_record file nm with
  | Some (file', nm', e) =>
      Some (mkNeedleMap file' (m nm') (bytes nm') (metric nm'), e)
  | None => None
  end.

(** Opening the index file anew: same bytes, position 0, and the answers
    [script] for the calls to come. *)
Definition reopen (f : File) (script : list io_outcome) : File :=
  mkFile (f_name f) (f_data f) 0 script.

Definition empty_file (name : string) (script : list io_outcome) : File :=
  mkFile name [] 0 script.

(** *** The log as a list of records *)

Definition decode_record (row : list byte) : Z * Z * Z :=
  (BytesToUint64 (slice row 0 8),
   BytesToUint32 (slice row 8 12),
   BytesToUint32 (slice row 12 16)).

Fixpoint records_n (k : nat) (l : list byte) : list (Z * Z * Z) :=
  match k with
  | O => []
  | S k' => decode_record (take 16 l) :: records_n k' (drop 16 l)
  end.

(** The complete 16-byte records of a log, in log order; a partial last
    record is left out. *)
Definition complete_records (l : list byte) : list (Z * Z * Z) :=
  records_n (length l / 16) l.

(** The callback applied to a list of records in order, stopping at the
    first error. *)
Fixpoint walk_records {St} (fn : St -> Z -> Z -> Z -> St * option error)
  (s : St) (rs : list (Z * Z * Z)) : St * option error :=
  match rs with
  | [] => (s, None)
  | (key, offset, size) :: rs' =>
      match fn s key offset size with
      | (s', Some e) => (s', Some e)
      | (s', None) => walk_records fn s' rs'
      end
  end.

Definition no_read_error (script : list io_outcome) : Prop :=
  Forall (fun o => match o with IoErr _ _ => False | _ => True end) script.

(** *** A run of operations on one index *)

Inductive index_op : Type :=
  | OpPut (key offset size : Z)
  | OpDelete (key : Z).

Definition run_op (nm : NeedleMap) (op : index_op) : NeedleMap * option error :=
  match op with
  | OpPut key offset size => let '(nm', (_, e)) := Put nm key offset size in (nm', e)
  | OpDelete key => Delete nm key
  end.

(** The operations in order; the errors they return are collected. *)
Fixpoint run_ops (nm : NeedleMap) (ops : list index_op) : NeedleMap * list error :=
  match ops with
  | [] => (nm, [])
  | op :: ops' =>
      let '(nm1, e) := run_op nm op in
      let '(nm2, es) := run_ops nm1 ops' in
      (nm2, match e with Some err => err :: es | None => es end)
  end.

(* ===================================================================== *)
(** ** The volume layout *)
(* ===================================================================== *)

(** What [volume_layout.go] uses of package [storage] without the excerpt
    declaring it: the replication types with their copy count, the current
    data format version and the decimal rendering of a volume id. *)
Class StoragePkg : Type := {
  ReplicationType : Type;
  GetCopyCount : ReplicationType -> Z;      (* int *)
  CurrentVersion : Z;
  VolumeId_String : Z -> string
}.

(** A [*DataNode]: a node reference, compared by identity. *)
Definition DataNode : Type := nat.

(** Modelled from the spec: [VolumeLocationList] ([NewVolumeLocationList],
    [Add], [Remove], [Length]) is not part of the excerpt.  It is an
    ordered sequence of distinct node references; [Add] and [Remove] are
    idempotent membership operations that return whether a change
    occurred. *)
Record VolumeLocationList : Type := mkLocations { vll_list : list DataNode }.

Definition NewVolumeLocationList : VolumeLocationList := mkLocations [].

Definition vll_Add (l : VolumeLocationList) (dn : DataNode)
  : VolumeLocationList * bool :=
  if decide (dn ∈ vll_list l) then (l, false) else (mkLocations (vll_list l ++ [dn]), true).

Fixpoint remove_first {A} `{EqDecision A} (x : A) (l : list A) : list A :=
  match l with
  | [] => []
  | y :: l' => if decide (y = x) then l' else y :: remove_first x l'
  end.

Definition vll_Remove (l : VolumeLocationList) (dn : DataNode)
  : VolumeLocationList * bool :=
  if decide (dn ∈ vll_list l) then (mkLocations (remove_first dn (vll_list l)), true)
  else (l, false).

Definition vll_Length (l : VolumeLocationList) : Z := Z.of_nat (length (vll_list l)).

Section Layout.
Context `{StoragePkg}.

(** The fields of [storage.VolumeInfo] that the layout reads. *)
Record VolumeInfo : Type := mkVolumeInfo {
  Id : Z;
  VSize : Z;
  RepType : ReplicationType;
  Version : Z;
  ReadOnly : bool
}.

Record VolumeLayout : Type := mkLayout {
  repType : ReplicationType;
  vid2location : gmap Z VolumeLocationList;
  writables : list Z;
  pulse : Z;
  volumeSizeLimit : Z
}.

Definition NewVolumeLayout (rt : ReplicationType) (limit pulse0 : Z) : VolumeLayout :=
  mkLayout rt ∅ [] pulse0 limit.

Definition isWritable (vl : VolumeLayout) (v : VolumeInfo) : bool :=
  bool_decide (u64 (VSize v) < volumeSizeLimit vl)
  && bool_decide (Version v = CurrentVersion)
  && negb (ReadOnly v).

(** [vl.vid2location[vid]] once [RegisterVolume] has made sure that the
    entry exists. *)
Definition location_or_new (vl : VolumeLayout) (vid : Z) : VolumeLocationList :=
  match vid2location vl !! vid with
  | Some l => l
  | None => NewVolumeLocationList
  end.

(** The nodes that hold [vid], none for an id the layout does not know. *)
Definition nodes_of (vl : VolumeLayout) (vid : Z) : list DataNode :=
  vll_list (location_or_new vl vid).

Definition RegisterVolume (vl : VolumeLayout) (v : VolumeInfo) (dn : DataNode)
  : VolumeLayout :=
  let locs0 := location_or_new vl (Id v) in
  let '(locs1, added) := vll_Add locs0 dn in
  let v2l := <[Id v := locs1]> (vid2location vl) in
  let w :=
    if added then
      if decide (vll_Length locs1 = GetCopyCount (RepType v)) then
        if isWritable vl v then writables vl ++ [Id v] else writables vl
      else writables vl
    else writables vl in
  mkLayout (repType vl) v2l w (pulse vl) (volumeSizeLimit vl).

Definition Lookup (vl : VolumeLayout) (vid : Z) : option (list DataNode) :=
  match vid2location vl !! vid with
  | Some location => Some (vll_list location)
  | None => None
  end.

Definition err_no_writable : error := errorString "No more writable volumes!".

Definition err_no_machine (vid : Z) : error :=
  errorString ("Strangely vid " +:+ VolumeId_String vid +:+ " is on no machine!").

(** [seed] is the state of the random source: [rand.Intn(n)] is a number
    below [n], here [seed mod n]. *)
Definition PickForWrite (vl : VolumeLayout) (count : Z) (seed : nat)
  : option Z * Z * option VolumeLocationList * option error :=
  let len_writers := length (writables vl) in
  if decide (Z.of_nat len_writers <= 0) then (None, 0, None, Some err_no_writable)
  else
    match writables vl !! (seed mod len_writers)%nat with
    | None => (None, 0, None, Some err_no_writable)   (* the index is in range *)
    | Some vid =>
        match vid2location vl !! vid with
        | Some locationList => (Some vid, count, Some locationList, None)
        | None => (None, 0, None, Some (err_no_machine vid))
        end
    end.

Definition GetActiveVolumeCount (vl : VolumeLayout) : Z :=
  Z.of_nat (length (writables vl)).

Definition removeFromWritable (vl : VolumeLayout) (vid : Z) : VolumeLayout * bool :=
  if decide (vid ∈ writables vl) then
    (mkLayout (repType vl) (vid2location vl) (remove_first vid (writables vl))
              (pulse vl) (volumeSizeLimit vl), true)
  else (vl, false).

Definition setVolumeWritable (vl : VolumeLayout) (vid : Z) : VolumeLayout * bool :=
  if decide (vid ∈ writables vl) then (vl, false)
  else (mkLayout (repType vl) (vid2location vl) (writables vl ++ [vid])
                 (pulse vl) (volumeSizeLimit vl), true).

(** [vl.vid2location[vid]] is a nil pointer for an id the layout has never
    seen, and [Remove]/[Add] on it panic: [None]. *)
Definition SetVolumeUnavailable (vl : VolumeLayout) (dn : DataNode) (vid : Z)
  : option (VolumeLayout * bool) :=
  match vid2location vl !! vid with
  | None => None
  | Some locs =>
      let '(locs1, removed) := vll_Remove locs dn in
      let vl1 := mkLayout (repType vl) (<[vid := locs1]> (vid2location vl))
                          (writables vl) (pulse vl) (volumeSizeLimit vl) in
      if removed then
        if decide (vll_Length locs1 < GetCopyCount (repType vl))
        then Some (removeFromWritable vl1 vid)
        else Some (vl1, false)
      else Some (vl1, false)
  end.

Definition SetVolumeAvailable (vl : VolumeLayout) (dn : DataNode) (vid : Z)
  : option (VolumeLayout * bool) :=
  match vid2location vl !! vid with
  | None => None
  | Some locs =>
      let '(locs1, added) := vll_Add locs dn in
      let vl1 := mkLayout (repType vl) (<[vid := locs1]> (vid2location vl))
                          (writables vl) (pulse vl) (volumeSizeLimit vl) in
      if added then
        if decide (vll_Length locs1 >= GetCopyCount (repType vl))
        then Some (setVolumeWritable vl1 vid)
        else Some (vl1, false)
      else Some (vl1, false)
  end.

Definition SetVolumeCapacityFull (vl : VolumeLayout) (vid : Z)
  : VolumeLayout * bool :=
  removeFromWritable vl vid.

(** *** Runs of layout operations *)

Inductive layout_op : Type :=
  | LRegister (v : VolumeInfo) (dn : DataNode)
  | LAvailable (dn : DataNode) (vid : Z)
  | LUnavailable (dn : DataNode) (vid : Z)
  | LCapacityFull (vid : Z).

Definition layout_step (vl : VolumeLayout) (op : layout_op) : option VolumeLayout :=
  match op with
  | LRegister v dn => Some (RegisterVolume vl v dn)
  | LAvailable dn vid => fst <$> SetVolumeAvailable vl dn vid
  | LUnavailable dn vid => fst <$> SetVolumeUnavailable vl dn vid
  | LCapacityFull vid => Some (fst (SetVolumeCapacityFull vl vid))
  end.

Fixpoint layout_run (vl : VolumeLayout) (ops : list layout_op) : option VolumeLayout :=
  match ops with
  | [] => Some vl
  | op :: ops' =>
      match layout_step vl op with
      | Some vl' => layout_run vl' ops'
      | None => None
      end
  end.

(** The volume information that the most recent [RegisterVolume] of a run
    reported for [vid]. *)
Fixpoint last_report (ops : list layout_op) (vid : Z) (acc : option VolumeInfo)
  : option VolumeInfo :=
  match ops with
  | [] => acc
  | LRegister v _ :: ops' =>
      last_report ops' vid (if decide (Id v = vid) then Some v else acc)
  | _ :: ops' => last_report ops' vid acc
  end.

(** Every registered volume carries the replication type of the layout it
    is registered in. *)
Definition same_class (rt : ReplicationType) (ops : list layout_op) : Prop :=
  Forall (fun op => match op with
                    | LRegister v _ => GetCopyCount (RepType v) = GetCopyCount rt
                    | _ => True
                    end) ops.

(** The writable set has no duplicates, and each of its ids has a
    location list with at least the copy count of the layout's
    replication type. *)
Definition layout_inv (vl : VolumeLayout) : Prop :=
  NoDup (writables vl) /\
  forall vid, vid ∈ writables vl ->
    exists locs, vid2location vl !! vid = Some locs /\
                 vll_Length locs >= GetCopyCount (repType vl).
End Layout.

(* ===================================================================== *)
(** ** Definitions used by the statements *)
(* ===================================================================== *)

(** [sub] occurs in [s]. *)
Definition contains (s sub : string) : Prop :=
  exists pre post : string, s = pre +:+ sub +:+ post.

Definition nm_at_10 : NeedleMap :=
  mkNeedleMap (empty_file "1.idx" []) NewCompactMap (replicate 16 x00)
              (mkMetric 0 0 0 0 10).

Definition truncate_note (terr : option error) : string :=
  match terr with
  | Some te => String "010"%char "couldn't truncate index file: " +:+ Error te
  | None => ""
  end.

Definition metric_after_capture (nm : NeedleMap) (key : Z) : mapMetric :=
  let mt := metric nm in
  mkMetric (DeletionCounter mt) (FileCounter mt)
           (u64 (DeletionByteCounter mt + oldSize_of (m nm !! key)))
           (FileByteCounter mt) (MaximumFileKey mt).

Definition nm_failing_disk : NeedleMap :=
  fst (Put (NewNeedleMap (empty_file "1.idx" [IoOk; IoOk; IoErr 5 "disk full"]))
           100 5 200).

(** A package [storage] to run the layout on: the copy count of a
    replication type is the type itself, version 2 is current, and volume
    ids print in decimal. *)
Definition demo_storage : StoragePkg :=
  {| ReplicationType := Z;
     GetCopyCount := fun r => r;
     CurrentVersion := 2;
     VolumeId_String := fun vid => NilZero.string_of_int (Z.to_int vid) |}.

(** A layout for one copy per volume with a size limit of 1000. *)
Definition layout0 : @VolumeLayout demo_storage :=
  @NewVolumeLayout demo_storage 1 1000 5.

Definition vol1 (size : Z) (read_only : bool) : @VolumeInfo demo_storage :=
  @mkVolumeInfo demo_storage 1 size 1 2 read_only.

(** The bytes of [f] that have not been read yet. *)
Definition unread (f : File) : list byte := drop (f_pos f) (f_data f).

(** What the loop still has to do: [count] bytes wait in the buffer, and
    either the last read succeeded, or it met the end of the file with
    less than one record left over. *)
Definition loop_pre (r : File) (count : nat) (e : option error) : Prop :=
  (e = None /\ (0 < count)%nat) \/
  (e = Some io_EOF /\ unread r = [] /\ (count < 16)%nat).

Definition fuel_ok (r : File) (e : option error) (fuel : nat) : Prop :=
  match e with
  | None => (length (unread r) + 2 <= fuel)%nat
  | Some _ => (1 <= fuel)%nat
  end.

(** The callback of [LoadNeedleMap] over a list of records. *)
Definition load_all (nm : NeedleMap) (rs : list (Z * Z * Z)) : NeedleMap :=
  fst (walk_records load_record nm rs).

(** The callback that writes down what it is called with. *)
Definition log_record (seen : list (Z * Z * Z)) (key offset size : Z)
  : list (Z * Z * Z) * option error :=
  (seen ++ [(key, offset, size)], None).

(** A log of one record followed by four stray bytes, delivered in chunks
    of 7, 6 and then all remaining bytes. *)
Definition torn_log : File :=
  mkFile "1.idx" (record_bytes 100 5 200 ++ [x01; x02; x03; x04]) 0
         [IoShort 7; IoShort 6].

Definition op_record (op : index_op) : Z * Z * Z :=
  match op with
  | OpPut key offset size => (key, offset, size)
  | OpDelete key => (key, 0, 0)
  end.

Definition op_bytes (op : index_op) : list byte :=
  let '(key, offset, size) := op_record op in record_bytes key offset size.

(** The log that a run leaves when each of its appends succeeds. *)
Definition log_of (ops : list index_op) : list byte := flat_map op_bytes ops.

Fixpoint count_deletes (ops : list index_op) : Z :=
  match ops with
  | [] => 0
  | OpDelete _ :: ops' => 1 + count_deletes ops'
  | OpPut _ _ _ :: ops' => count_deletes ops'
  end.

Definition max_key (ops : list index_op) (start : Z) : Z :=
  fold_left (fun acc op => Z.max acc (fst (fst (op_record op)))) ops start.

(** The arguments have the range of their Go types, and no [Put] stores
    the offset 0, which the log reserves for tombstones. *)
Definition valid_op (op : index_op) : Prop :=
  match op with
  | OpPut key offset size => is_u64 key /\ is_u32 offset /\ 0 < offset /\ is_u32 size
  | OpDelete key => is_u64 key
  end.

Definition at_end (f : File) : Prop := f_pos f = length (f_data f).

(** The replayed index [ld] against the live one, [d] tombstones into the
    log. *)
Definition replays (d : Z) (live ld : NeedleMap) : Prop :=
  m ld = m live /\
  FileByteCounter (metric ld) = FileByteCounter (metric live) /\
  is_u64 (FileByteCounter (metric live)) /\
  DeletionCounter (metric ld) = DeletionCounter (metric live) /\
  DeletionByteCounter (metric ld) = DeletionByteCounter (metric live) /\
  FileCounter (metric ld) = int_wrap (FileCounter (metric live) + d).

Definition fresh_index : NeedleMap := NewNeedleMap (empty_file "1.idx" []).

(** The index reloaded from the log of [nm], the file read in one piece. *)
Definition reload (nm : NeedleMap) : option (NeedleMap * option error) :=
  LoadNeedleMap (reopen (indexFile nm) []).

Definition scenario_index : NeedleMap :=
  fst (run_ops fresh_index [OpPut 100 5 200; OpDelete 100]).

(** What a log says about one key: its last record decides, a record with
    offset 0 standing for "deleted". *)
Definition replay_value (rs : list (Z * Z * Z)) (key : Z) (start : option NeedleValue)
  : option NeedleValue :=
  fold_left (fun acc r =>
               let '(k, o, s) := r in
               if decide (k = key)
               then (if decide (o > 0) then Some (mkNeedleValue k o s) else None)
               else acc)
            rs start.

Definition max_record_key (rs : list (Z * Z * Z)) (start : Z) : Z :=
  fold_left (fun acc r => Z.max acc (fst (fst r))) rs start.

Definition sum_record_sizes (rs : list (Z * Z * Z)) : Z :=
  fold_left (fun acc r => acc + snd r) rs 0.

(** An index whose second write will be cut after 3 bytes. *)
Definition nm_short_write : NeedleMap :=
  fst (Put (NewNeedleMap (empty_file "1.idx" [IoOk; IoShort 3])) 100 5 200).

(** The index that [LoadNeedleMap] builds from the log of the scenario. *)
Definition loaded_scenario : NeedleMap :=
  match reload scenario_index with
  | Some (nm, _) => nm
  | None => fresh_index
  end.

(** The same volume reported by one node after the other. *)
Definition register_all `{StoragePkg} (vl : VolumeLayout) (v : VolumeInfo)
    (dns : list DataNode) : VolumeLayout :=
  fold_left (fun vl dn => RegisterVolume vl v dn) dns vl.

(* ===================================================================== *)
(** ** The upload client: the file name in the part header *)
(* ===================================================================== *)

Definition backslash : ascii := ascii_of_nat 92.
Definition dquote : ascii := ascii_of_nat 34.

(** [fileNameEscaper.Replace], the replacer built from the pairs
    (backslash, two backslashes) and (double quote, backslash and double
    quote): both old strings are one byte long, so each byte of the input
    is replaced on its own and every other byte is copied. *)
Fixpoint fileNameEscaper_Replace (s : string) : string :=
  match s with
  | EmptyString => EmptyString
  | String c s' =>
      if decide (c = backslash)
      then String backslash (String backslash (fileNameEscaper_Replace s'))
      else if decide (c = dquote)
      then String backslash (String dquote (fileNameEscaper_Replace s'))
      else String c (fileNameEscaper_Replace s')
  end.

(** The value that [upload_content] sets for Content-Disposition: the
    format string of [fmt.Sprintf] with the escaped file name in place of
    its verb. *)
Definition content_disposition (filename : string) : string :=
  "form-data; name=" +:+ String dquote ("file" +:+ String dquote ("; filename="
    +:+ String dquote (fileNameEscaper_Replace filename +:+ String dquote ""))).

(** How a reader of the header takes a quoted string, from just after the
    opening quote: a backslash makes the next byte literal, the first
    quote that is not so escaped closes the string.  The result is the
    content and what follows the closing quote. *)
Fixpoint read_quoted (s : string) : option (string * string) :=
  match s with
  | EmptyString => None
  | String c s' =>
      if decide (c = dquote) then Some (EmptyString, s')
      else if decide (c = backslash) then
        match s' with
        | EmptyString => None
        | String c' s'' =>
            match read_quoted s'' with
            | Some (body, rest) => Some (String c' body, rest)
            | None => None
            end
        end
      else
        match read_quoted s' with
        | Some (body, rest) => Some (String c body, rest)
        | None => None
        end
  end.

(** A callback that refuses tombstones and writes down everything else. *)
Definition stop_at_tombstone (seen : list (Z * Z * Z)) (key offset size : Z)
  : list (Z * Z * Z) * option error :=
  if decide (offset = 0) then (seen, Some (errorString "tombstone"))
  else log_record seen key offset size.

(* ===================================================================== *)
(** * Properties *)
(* ===================================================================== *)

(** ** Strings *)

Lemma string_app_assoc (a b c : string) : (a +:+ b) +:+ c = a +:+ (b +:+ c).
Proof.
  induction a as [|ch a IH]; [reflexivity|].
  change (String ch ((a +:+ b) +:+ c) = String ch (a +:+ (b +:+ c))).
  now rewrite IH.
Qed.

(** ** The allocator *)

Lemma NextFileKey_keeps_receiver (nm : NeedleMap) (count : Z) :
  snd (NextFileKey nm count) = nm.
Proof. unfold NextFileKey. now destruct (NextFileKey_body nm count). Qed.

Lemma NextFileKey_nonpositive (nm : NeedleMap) (count : Z) :
  count <= 0 -> NextFileKey nm count = (0, nm).
Proof.
  intros Hc. unfold NextFileKey, NextFileKey_body.
  destruct (decide (count <= 0)); [reflexivity | lia].
Qed.

Lemma NextFileKey_positive (nm : NeedleMap) (count : Z) :
  0 < count -> NextFileKey nm count = (MaxFileKey nm, nm).
Proof.
  intros Hc. unfold NextFileKey, NextFileKey_body, MaxFileKey.
  destruct (decide (count <= 0)); [lia | reflexivity].
Qed.

(** What the body would leave behind were the receiver a pointer. *)
Lemma NextFileKey_body_advances (nm : NeedleMap) (count : Z) :
  0 < count ->
  MaxFileKey (snd (NextFileKey_body nm count)) = u64 (MaxFileKey nm + count).
Proof.
  intros Hc. unfold NextFileKey_body, MaxFileKey.
  destruct (decide (count <= 0)); [lia | reflexivity].
Qed.

(** C1.  On an index whose high-water mark is 10, [NextFileKey(3)] followed
    by [NextFileKey(4)] returns 10 both times and the mark is still 10: the
    second range [10, 14) overlaps the first [10, 13).  The increment is
    made on the by-value copy of the receiver and is lost. *)
Theorem NextFileKey_twice_at_10 :
  fst (NextFileKey nm_at_10 3) = 10 /\
  fst (NextFileKey (snd (NextFileKey nm_at_10 3)) 4) = 10 /\
  MaxFileKey (snd (NextFileKey (snd (NextFileKey nm_at_10 3)) 4)) = 10.
Proof.
  rewrite !NextFileKey_positive by lia. simpl. auto.
Qed.

(** ** Put *)

Lemma Put_map (nm : NeedleMap) (key offset size : Z) :
  m (fst (Put nm key offset size)) = <[key := mkNeedleValue key offset size]> (m nm).
Proof.
  unfold Put, cm_Set.
  destruct (decide (oldSize_of (m nm !! key) > 0));
    destruct (file_Write _ _) as [f1 r]; reflexivity.
Qed.

Lemma Put_metric (nm : NeedleMap) (key offset size : Z) :
  metric (fst (Put nm key offset size)) =
    let mt := metric nm in
    let old := oldSize_of (m nm !! key) in
    mkMetric (if decide (old > 0) then int_wrap (DeletionCounter mt + 1)
              else DeletionCounter mt)
             (int_wrap (FileCounter mt + 1))
             (if decide (old > 0) then u64 (DeletionByteCounter mt + old)
              else DeletionByteCounter mt)
             (u64 (FileByteCounter mt + size))
             (MaximumFileKey mt).
Proof.
  unfold Put, cm_Set. cbv zeta.
  destruct (decide (oldSize_of (m nm !! key) > 0));
    destruct (file_Write _ _) as [f1 r]; reflexivity.
Qed.

Lemma Put_file (nm : NeedleMap) (key offset size : Z) :
  (indexFile (fst (Put nm key offset size)), snd (Put nm key offset size)) =
    file_Write (indexFile nm) (record_bytes key offset size).
Proof.
  unfold Put, cm_Set.
  destruct (decide (oldSize_of (m nm !! key) > 0));
    destruct (file_Write _ _) as [f1 r]; reflexivity.
Qed.

(** C9 as stated fails when the record that is overwritten has size 0:
    after [Put(1, 5, 0)] a record for key 1 exists, yet [Put(1, 6, 10)]
    leaves [deletionCounter] where it was. *)
Lemma Put_overwrite_of_empty_record_not_counted :
  let nm0 := fst (Put (NewNeedleMap (empty_file "1.idx" [])) 1 5 0) in
  let nm1 := fst (Put nm0 1 6 10) in
  m nm0 !! 1 = Some (mkNeedleValue 1 5 0) /\
  DeletedCount nm1 = DeletedCount nm0 /\
  DeletedCount nm1 <> int_wrap (DeletedCount nm0 + 1).
Proof. vm_compute. repeat split; congruence. Qed.

(** C9, amended.  [Put] increments [fileCounter] by 1 and [fileByteCounter]
    by [size] unconditionally and leaves [(key, offset, size)] in the map;
    when the record it displaces has a size above 0, [deletionCounter] is
    incremented by 1 and that size is added to [deletionByteCounter]; when
    there was no record, or one of size 0, the deletion counters keep
    their values. *)
Theorem Put_effects (nm : NeedleMap) (key offset size : Z) :
  let nm' := fst (Put nm key offset size) in
  FileCount nm' = int_wrap (FileCount nm + 1) /\
  ContentSize nm' = u64 (ContentSize nm + size) /\
  Get nm' key = Some (mkNeedleValue key offset size) /\
  (forall old, Get nm key = Some old -> Size old > 0 ->
     DeletedCount nm' = int_wrap (DeletedCount nm + 1) /\
     DeletedSize nm' = u64 (DeletedSize nm + Size old)) /\
  (forall old, Get nm key = Some old -> Size old <= 0 ->
     DeletedCount nm' = DeletedCount nm /\ DeletedSize nm' = DeletedSize nm) /\
  (Get nm key = None ->
     DeletedCount nm' = DeletedCount nm /\ DeletedSize nm' = DeletedSize nm).
Proof.
  cbv zeta.
  unfold FileCount, ContentSize, DeletedCount, DeletedSize, Get, cm_Get.
  rewrite Put_metric, Put_map. cbv zeta. simpl.
  split; [reflexivity|]. split; [reflexivity|].
  split; [apply lookup_insert_eq|].
  split; [|split].
  - intros old Hold Hpos. rewrite Hold. simpl.
    destruct (decide (Size old > 0)); [auto | lia].
  - intros old Hold Hz. rewrite Hold. simpl.
    destruct (decide (Size old > 0)); [lia | auto].
  - intros Hnone. rewrite Hnone. simpl.
    destruct (decide (0 > 0)); [lia | auto].
Qed.

Lemma Put_effects_witness :
  let nm0 := fst (Put (NewNeedleMap (empty_file "1.idx" [])) 7 5 200) in
  let nm1 := fst (Put nm0 7 9 30) in
  DeletedCount nm1 = int_wrap (DeletedCount nm0 + 1) /\
  DeletedSize nm1 = u64 (DeletedSize nm0 + 200).
Proof.
  cbv zeta.
  apply (proj1 (proj2 (proj2 (proj2
    (Put_effects (fst (Put (NewNeedleMap (empty_file "1.idx" [])) 7 5 200)) 7 9 30))))
    (mkNeedleValue 7 5 200)).
  - vm_compute. reflexivity.
  - simpl. lia.
Defined.

(** ** Delete *)

Lemma Delete_seek_fails (nm : NeedleMap) (key : Z) f1 off e :
  file_Seek_current (indexFile nm) = (f1, (off, Some e)) ->
  Delete nm key =
    (mkNeedleMap f1 (delete key (m nm)) (bytes nm) (metric_after_capture nm key),
     Some (errorString ("cannot get position of indexfile: " +:+ Error e))).
Proof. intros Hs. unfold Delete, cm_Delete. rewrite Hs. reflexivity. Qed.

Lemma Delete_write_fails (nm : NeedleMap) (key : Z) f1 off f2 n we f3 terr :
  file_Seek_current (indexFile nm) = (f1, (off, None)) ->
  file_Write f1 (record_bytes key 0 0) = (f2, (n, Some we)) ->
  file_Truncate f2 off = (f3, terr) ->
  Delete nm key =
    (mkNeedleMap f3 (delete key (m nm)) (record_bytes key 0 0)
                 (metric_after_capture nm key),
     Some (errorString ("error writing to indexfile " +:+ fmt_file f3
                        +:+ ": " +:+ Error we +:+ truncate_note terr))).
Proof.
  intros Hs Hw Ht. unfold Delete, cm_Delete. rewrite Hs. cbv zeta.
  rewrite Hw, Ht. destruct terr; reflexivity.
Qed.

Lemma Delete_write_ok (nm : NeedleMap) (key : Z) f1 off f2 n :
  file_Seek_current (indexFile nm) = (f1, (off, None)) ->
  file_Write f1 (record_bytes key 0 0) = (f2, (n, None)) ->
  Delete nm key =
    (mkNeedleMap f2 (delete key (m nm)) (record_bytes key 0 0)
       (let mt := metric nm in
        mkMetric (int_wrap (DeletionCounter mt + 1)) (FileCounter mt)
                 (u64 (DeletionByteCounter mt + oldSize_of (m nm !! key)))
                 (FileByteCounter mt) (MaximumFileKey mt)),
     None).
Proof.
  intros Hs Hw. unfold Delete, cm_Delete. rewrite Hs. cbv zeta.
  rewrite Hw. reflexivity.
Qed.

Lemma Seek_current_ok (f f1 : File) (off : nat) :
  file_Seek_current f = (f1, (off, None)) ->
  off = f_pos f /\ f_data f1 = f_data f /\ f_pos f1 = f_pos f.
Proof.
  unfold file_Seek_current. destruct (next_outcome f) as [o rest].
  destruct o; intros Heq; inversion Heq; subst; simpl; auto.
Qed.

Lemma Write_data (f f2 : File) (b : list byte) (n : nat) (e : option error) :
  file_Write f b = (f2, (n, e)) ->
  f_data f2 = write_at (f_data f) (f_pos f) (take n b) /\ (n <= length b)%nat.
Proof.
  unfold file_Write. destruct (next_outcome f) as [o rest].
  intros Heq. inversion Heq; subst. simpl. split; [reflexivity|].
  destruct o; lia.
Qed.

Lemma Truncate_ok (f f3 : File) (size : nat) :
  file_Truncate f size = (f3, None) ->
  f_data f3 = take size (f_data f) ++ replicate (size - length (f_data f)) x00.
Proof.
  unfold file_Truncate. destruct (next_outcome f) as [o rest].
  destruct o; intros Heq; inversion Heq; subst; reflexivity.
Qed.

(** Cutting a file at the place where a write started undoes the write. *)
Lemma truncate_write_at (data : list byte) (pos : nat) (bs : list byte) :
  take pos (write_at data pos bs)
    ++ replicate (pos - length (write_at data pos bs)) x00
  = take pos data ++ replicate (pos - length data) x00.
Proof.
  unfold write_at.
  assert (Hlen : length (take pos data ++ replicate (pos - length data) x00) = pos).
  { rewrite length_app, length_take, length_replicate. lia. }
  rewrite (app_assoc (take pos data)).
  set (front := take pos data ++ replicate (pos - length data) x00) in *.
  set (back := bs ++ drop (pos + length bs) data).
  rewrite take_app_length' by (symmetry; exact Hlen).
  assert (Hz : (pos - length (front ++ back) = 0)%nat)
    by (rewrite length_app, Hlen; lia).
  rewrite Hz. simpl. apply app_nil_r.
Qed.

Lemma string_app_nil_r (s : string) : s +:+ "" = s.
Proof.
  induction s as [|ch s IH]; [reflexivity|].
  change (String ch (s +:+ "") = String ch s). now rewrite IH.
Qed.

(** C8.  When the append of the tombstone fails, [Delete] truncates the
    file at the position it read before the write (so the bytes of the
    failed write are gone: the file is what it was up to that position),
    and the error it returns carries the message of the write error; the
    message of a failed truncation follows it, after the write error and
    without replacing it. *)
Theorem Delete_failed_append_truncates (nm : NeedleMap) (key : Z)
    (f1 f2 f3 : File) (off n : nat) (we : error) (terr : option error) :
  file_Seek_current (indexFile nm) = (f1, (off, None)) ->
  file_Write f1 (record_bytes key 0 0) = (f2, (n, Some we)) ->
  file_Truncate f2 off = (f3, terr) ->
  off = f_pos (indexFile nm) /\
  indexFile (fst (Delete nm key)) = f3 /\
  (terr = None ->
     f_data f3 = take off (f_data (indexFile nm))
                   ++ replicate (off - length (f_data (indexFile nm))) x00) /\
  (terr = None -> f_pos (indexFile nm) = length (f_data (indexFile nm)) ->
     f_data f3 = f_data (indexFile nm)) /\
  exists pre : string,
    snd (Delete nm key) =
      Some (errorString (pre +:+ Error we +:+ truncate_note terr)) /\
    contains (pre +:+ Error we +:+ truncate_note terr) (Error we) /\
    (terr = None -> truncate_note terr = "") /\
    (forall te, terr = Some te ->
       exists mid : string, truncate_note terr = mid +:+ Error te).
Proof.
  intros Hs Hw Ht.
  destruct (Seek_current_ok _ _ _ Hs) as (Hoff & Hd1 & Hp1).
  destruct (Write_data _ _ _ _ _ Hw) as (Hd2 & _).
  rewrite (Delete_write_fails nm key _ _ _ _ _ _ _ Hs Hw Ht). simpl.
  assert (Hcut : terr = None ->
            f_data f3 = take off (f_data (indexFile nm))
                   ++ replicate (off - length (f_data (indexFile nm))) x00).
  { intros ->. rewrite (Truncate_ok _ _ _ Ht), Hd2, Hd1, Hp1, Hoff.
    apply truncate_write_at. }
  split; [exact Hoff|]. split; [reflexivity|]. split; [exact Hcut|].
  split.
  { intros Hn Hend. rewrite (Hcut Hn), Hoff, Hend.
    rewrite take_ge by lia. rewrite Nat.sub_diag. simpl. apply app_nil_r. }
  exists ("error writing to indexfile " +:+ fmt_file f3 +:+ ": ").
  split.
  { do 2 f_equal. now rewrite !string_app_assoc. }
  split.
  { exists ("error writing to indexfile " +:+ fmt_file f3 +:+ ": "),
           (truncate_note terr). reflexivity. }
  split.
  { intros ->. reflexivity. }
  intros te ->. simpl.
  exists (String "010"%char "couldn't truncate index file: "). reflexivity.
Qed.

Lemma Delete_failed_append_truncates_witness :
  indexFile (fst (Delete nm_failing_disk 100))
    = mkFile "1.idx" (record_bytes 100 5 200) 21 [] /\
  f_data (indexFile nm_failing_disk) = record_bytes 100 5 200.
Proof.
  split; [|vm_compute; reflexivity].
  refine (proj1 (proj2
    (Delete_failed_append_truncates nm_failing_disk 100
       (mkFile "1.idx" (record_bytes 100 5 200) 16 [IoErr 5 "disk full"])
       (mkFile "1.idx" (record_bytes 100 5 200 ++ take 5 (record_bytes 100 0 0)) 21 [])
       (mkFile "1.idx" (record_bytes 100 5 200) 21 [])
       16 5 (PathError "disk full") None _ _ _)));
    vm_compute; reflexivity.
Defined.



(* ===================================================================== *)
(** ** The volume layout: placement *)
(* ===================================================================== *)

Section LayoutFacts.
Context `{StoragePkg}.

Lemma err_no_machine_distinct (vid : Z) : err_no_machine vid <> err_no_writable.
Proof.
  unfold err_no_machine, err_no_writable. intros Heq.
  injection Heq as Heq. discriminate Heq.
Qed.

Lemma rand_index_in_range (vl : VolumeLayout) (seed : nat) :
  writables vl <> [] ->
  exists vid, writables vl !! (seed mod length (writables vl))%nat = Some vid.
Proof.
  intros Hne. apply lookup_lt_is_Some_2.
  apply Nat.mod_upper_bound. destruct (writables vl); [congruence | simpl; lia].
Qed.

(** C6.  [PickForWrite] returns the exhaustion error exactly when the
    writable set is empty.  Otherwise the random index selects an id of
    the set (and every index can be selected); an id with a location
    list is returned together with the count as given and that list; an
    id without one yields the inconsistency error, which is not the
    exhaustion error. *)
Theorem PickForWrite_outcomes (vl : VolumeLayout) (count : Z) (seed : nat) :
  (PickForWrite vl count seed = (None, 0, None, Some err_no_writable)
     <-> writables vl = []) /\
  (writables vl <> [] ->
     exists vid, writables vl !! (seed mod length (writables vl))%nat = Some vid) /\
  (forall i vid, writables vl !! i = Some vid ->
     (i mod length (writables vl))%nat = i /\
     (forall locs, vid2location vl !! vid = Some locs ->
        PickForWrite vl count i = (Some vid, count, Some locs, None)) /\
     (vid2location vl !! vid = None ->
        PickForWrite vl count i = (None, 0, None, Some (err_no_machine vid)) /\
        err_no_machine vid <> err_no_writable)).
Proof.
  split; [|split].
  - unfold PickForWrite. split.
    + destruct (decide (Z.of_nat (length (writables vl)) <= 0)) as [Hle|Hgt].
      * intros _. destruct (writables vl); [reflexivity | simpl in Hle; lia].
      * assert (Hne : writables vl <> []).
        { intros Heq. rewrite Heq in Hgt. simpl in Hgt. lia. }
        destruct (rand_index_in_range vl seed Hne) as [vid Hvid]. rewrite Hvid.
        destruct (vid2location vl !! vid); intros Heq; [discriminate Heq|].
        exfalso. apply (err_no_machine_distinct vid). congruence.
    + intros ->. reflexivity.
  - apply rand_index_in_range.
  - intros i vid Hi.
    assert (Hlt : (i < length (writables vl))%nat) by (eapply lookup_lt_Some; eauto).
    assert (Hmod : (i mod length (writables vl))%nat = i) by (apply Nat.mod_small; lia).
    split; [exact Hmod|].
    unfold PickForWrite.
    destruct (decide (Z.of_nat (length (writables vl)) <= 0)) as [Hle|Hgt]; [lia|].
    rewrite Hmod, Hi. split.
    + intros locs ->. reflexivity.
    + intros ->. split; [reflexivity | apply err_no_machine_distinct].
Qed.

(** ** The volume layout: registration *)

Lemma RegisterVolume_location (vl : VolumeLayout) (v : VolumeInfo) (dn : DataNode) :
  vid2location (RegisterVolume vl v dn) =
    <[Id v := fst (vll_Add (location_or_new vl (Id v)) dn)]> (vid2location vl).
Proof.
  unfold RegisterVolume.
  destruct (vll_Add (location_or_new vl (Id v)) dn) as [locs1 added]. reflexivity.
Qed.

Lemma RegisterVolume_writables (vl : VolumeLayout) (v : VolumeInfo) (dn : DataNode) :
  writables (RegisterVolume vl v dn) =
    let r := vll_Add (location_or_new vl (Id v)) dn in
    if snd r then
      if decide (vll_Length (fst r) = GetCopyCount (RepType v)) then
        if isWritable vl v then writables vl ++ [Id v] else writables vl
      else writables vl
    else writables vl.
Proof.
  unfold RegisterVolume.
  destruct (vll_Add (location_or_new vl (Id v)) dn) as [locs1 added]. reflexivity.
Qed.

Lemma location_or_new_insert (vl vl' : VolumeLayout) (vid : Z) (l : VolumeLocationList) :
  vid2location vl' = <[vid := l]> (vid2location vl) ->
  location_or_new vl' vid = l.
Proof. intros Heq. unfold location_or_new. now rewrite Heq, lookup_insert_eq. Qed.

Lemma RegisterVolume_nodes_new (vl : VolumeLayout) (v : VolumeInfo) (dn : DataNode) :
  dn ∉ nodes_of vl (Id v) ->
  nodes_of (RegisterVolume vl v dn) (Id v) = nodes_of vl (Id v) ++ [dn].
Proof.
  intros Hnew. unfold nodes_of in *.
  rewrite (location_or_new_insert _ _ _ _ (RegisterVolume_location vl v dn)).
  unfold vll_Add. case_decide; [contradiction | reflexivity].
Qed.

(** C5, amended.  When [RegisterVolume] adds a node that the volume's
    location list did not hold, the volume id is appended to the
    writable set if the list now has exactly the copy count of the
    volume's replication type and the volume is below the size limit, at
    the current version and not read-only; if the length differs from
    the copy count, above as well as below, the writable set is left as
    it was. *)
Theorem RegisterVolume_threshold (vl : VolumeLayout) (v : VolumeInfo) (dn : DataNode) :
  dn ∉ nodes_of vl (Id v) ->
  let vl' := RegisterVolume vl v dn in
  (Z.of_nat (length (nodes_of vl' (Id v))) = GetCopyCount (RepType v) ->
   isWritable vl v = true ->
   writables vl' = writables vl ++ [Id v]) /\
  (Z.of_nat (length (nodes_of vl' (Id v))) <> GetCopyCount (RepType v) ->
   writables vl' = writables vl).
Proof.
  intros Hnew. cbv zeta.
  rewrite (RegisterVolume_nodes_new _ _ _ Hnew).
  rewrite RegisterVolume_writables. cbv zeta.
  unfold nodes_of in *. unfold vll_Add.
  case_decide; [contradiction|]. simpl.
  unfold vll_Length. simpl. split.
  - intros Hlen Hw. rewrite Hw.
    destruct (decide (_ = _)) as [_|Hne]; [reflexivity | contradiction].
  - intros Hlen. destruct (decide (_ = _)) as [Heq|_]; [contradiction | reflexivity].
Qed.
End LayoutFacts.

(** *** Concrete layouts *)

Lemma PickForWrite_outcomes_witness :
  @PickForWrite demo_storage (RegisterVolume layout0 (vol1 10 false) 7%nat) 3 0
    = (Some 1, 3, Some (mkLocations [7%nat]), None).
Proof.
  refine (proj1 (proj2 (proj2 (proj2
    (@PickForWrite_outcomes demo_storage
       (RegisterVolume layout0 (vol1 10 false) 7%nat) 3 0)) 0%nat 1 _)) _ _);
    vm_compute; reflexivity.
Defined.

(** C5 as stated fails above the copy count.  Volume 1, one copy required,
    is first reported read-only by node 7 and so stays out of the writable
    set; when node 8 then reports it writable, the list grows to two nodes,
    which is at least the copy count, and the id is still not appended. *)
Lemma RegisterVolume_above_copy_count_not_appended :
  let vl1 := @RegisterVolume demo_storage layout0 (vol1 10 true) 7%nat in
  let vl2 := @RegisterVolume demo_storage vl1 (vol1 10 false) 8%nat in
  nodes_of vl1 1 = [7%nat] /\
  nodes_of vl2 1 = [7%nat; 8%nat] /\
  Z.of_nat (length (nodes_of vl2 1)) >= @GetCopyCount demo_storage 1 /\
  isWritable vl1 (vol1 10 false) = true /\
  writables vl2 = [] /\
  writables vl2 <> writables vl1 ++ [1].
Proof. vm_compute. repeat split; congruence. Qed.

Lemma RegisterVolume_threshold_witness :
  writables (@RegisterVolume demo_storage layout0 (vol1 10 false) 7%nat)
    = writables layout0 ++ [1].
Proof.
  refine (proj1 (@RegisterVolume_threshold demo_storage layout0 (vol1 10 false) 7%nat _) _ _).
  - vm_compute. intros Hin. inversion Hin.
  - vm_compute. reflexivity.
  - vm_compute. reflexivity.
Defined.

(* ===================================================================== *)
(** ** The volume layout: the writable set *)
(* ===================================================================== *)

Section RemoveFirst.
Context {A : Type} `{EqDecision A}.

Lemma remove_first_elem_of (x y : A) (l : list A) :
  y ∈ remove_first x l -> y ∈ l.
Proof.
  induction l as [|z l IH]; simpl; [easy|].
  case_decide; set_solver.
Qed.

Lemma remove_first_NoDup (x : A) (l : list A) :
  NoDup l -> NoDup (remove_first x l).
Proof.
  induction 1 as [|z l Hz Hnd IH]; simpl; [constructor|].
  case_decide; [assumption|].
  constructor; [|assumption].
  intros Hin. apply Hz. eapply remove_first_elem_of. eassumption.
Qed.

Lemma remove_first_gone (x : A) (l : list A) :
  NoDup l -> x ∉ remove_first x l.
Proof.
  induction 1 as [|z l Hz Hnd IH]; simpl; [set_solver|].
  case_decide; [subst; assumption | set_solver].
Qed.

Lemma remove_first_length (x : A) (l : list A) :
  (length (remove_first x l) <= length l)%nat.
Proof.
  induction l as [|z l IH]; simpl; [lia|]. case_decide; simpl; lia.
Qed.
End RemoveFirst.

Section LayoutInvariant.
Context `{StoragePkg}.

Lemma layout_inv_new (rt : ReplicationType) (limit pulse0 : Z) :
  layout_inv (NewVolumeLayout rt limit pulse0).
Proof. split; simpl; [constructor | set_solver]. Qed.

Lemma location_or_new_Some (vl : VolumeLayout) (vid : Z) (locs : VolumeLocationList) :
  vid2location vl !! vid = Some locs -> location_or_new vl vid = locs.
Proof. intros Hl. unfold location_or_new. now rewrite Hl. Qed.

Lemma RegisterVolume_repType (vl : VolumeLayout) v dn :
  repType (RegisterVolume vl v dn) = repType vl.
Proof.
  unfold RegisterVolume. destruct (vll_Add _ dn) as [locs1 added]. reflexivity.
Qed.

Lemma RegisterVolume_inv (vl : VolumeLayout) (v : VolumeInfo) (dn : DataNode) :
  GetCopyCount (RepType v) = GetCopyCount (repType vl) ->
  layout_inv vl -> layout_inv (RegisterVolume vl v dn).
Proof.
  intros Hclass [Hnd Hin]. unfold layout_inv.
  rewrite RegisterVolume_repType, RegisterVolume_location, RegisterVolume_writables.
  cbv zeta. unfold vll_Add.
  assert (Hold : forall vid l', vid ∈ writables vl ->
            (length (vll_list (location_or_new vl (Id v)))
               <= length (vll_list l'))%nat ->
            exists locs, <[Id v := l']> (vid2location vl) !! vid = Some locs /\
                         vll_Length locs >= GetCopyCount (repType vl)).
  { intros vid l' Hvid Hlen. destruct (Hin vid Hvid) as (locs & Hl & Hge).
    destruct (decide (vid = Id v)) as [->|Hne].
    - rewrite lookup_insert_eq. eexists; split; [reflexivity|].
      rewrite (location_or_new_Some _ _ _ Hl) in Hlen.
      unfold vll_Length in *. lia.
    - rewrite lookup_insert_ne by congruence. eauto. }
  case_decide as Hmem; simpl.
  { split; [assumption|]. intros vid Hvid. apply Hold; [assumption | lia]. }
  case_decide as Hlen; [|split; [assumption|];
    intros vid Hvid; apply Hold; [assumption | simpl; rewrite length_app; lia]].
  destruct (isWritable vl v); [|split; [assumption|];
    intros vid Hvid; apply Hold; [assumption | simpl; rewrite length_app; lia]].
  unfold vll_Length in Hlen. simpl in Hlen. rewrite length_app in Hlen. simpl in Hlen.
  split.
  - apply NoDup_app. split; [assumption|]. split; [|apply NoDup_singleton].
    intros x Hx Hx'. apply list_elem_of_singleton in Hx'. subst x.
    destruct (Hin _ Hx) as (locs & Hl & Hge).
    rewrite (location_or_new_Some _ _ _ Hl) in Hlen.
    unfold vll_Length in Hge. lia.
  - intros vid Hvid. apply elem_of_app in Hvid as [Hvid|Hvid].
    + apply Hold; [assumption | simpl; rewrite length_app; lia].
    + apply list_elem_of_singleton in Hvid. subst vid.
      rewrite lookup_insert_eq. eexists; split; [reflexivity|].
      unfold vll_Length. simpl. rewrite length_app. simpl. lia.
Qed.

Lemma removeFromWritable_inv (vl : VolumeLayout) (vid : Z) :
  layout_inv vl -> layout_inv (fst (removeFromWritable vl vid)).
Proof.
  intros [Hnd Hin]. unfold removeFromWritable.
  case_decide; simpl; [|split; assumption].
  split; simpl; [now apply remove_first_NoDup|].
  intros x Hx. apply Hin. eapply remove_first_elem_of. eassumption.
Qed.

Lemma SetVolumeAvailable_inv (vl vl' : VolumeLayout) dn vid b :
  SetVolumeAvailable vl dn vid = Some (vl', b) ->
  layout_inv vl -> layout_inv vl' /\ repType vl' = repType vl.
Proof.
  unfold SetVolumeAvailable. intros Hrun [Hnd Hin].
  destruct (vid2location vl !! vid) as [locs|] eqn:Hl; [|discriminate].
  unfold vll_Add in Hrun.
  assert (Hold : forall x l', x ∈ writables vl ->
            (length (vll_list locs) <= length (vll_list l'))%nat ->
            exists locs', <[vid := l']> (vid2location vl) !! x = Some locs' /\
                          vll_Length locs' >= GetCopyCount (repType vl)).
  { intros x l' Hx Hlen. destruct (Hin x Hx) as (lx & Hlx & Hge).
    destruct (decide (x = vid)) as [->|Hne].
    - rewrite lookup_insert_eq. eexists; split; [reflexivity|].
      assert (lx = locs) by congruence. subst lx.
      unfold vll_Length in *. lia.
    - rewrite lookup_insert_ne by congruence. eauto. }
  case_decide as Hmem.
  { inversion Hrun; subst. split; [|reflexivity]. split; [assumption|].
    simpl. intros x Hx. apply Hold; [assumption | lia]. }
  case_decide as Hlen.
  2:{ inversion Hrun; subst. split; [|reflexivity]. split; [assumption|].
      simpl. intros x Hx. apply Hold; [assumption | simpl; rewrite length_app; lia]. }
  unfold setVolumeWritable in Hrun. simpl in Hrun.
  case_decide as Hw; inversion Hrun; subst; (split; [|reflexivity]).
  - split; [assumption|]. simpl. intros x Hx.
    apply Hold; [assumption | simpl; rewrite length_app; lia].
  - split; simpl.
    + apply NoDup_app. split; [assumption|]. split; [|apply NoDup_singleton].
      intros x Hx Hx'. apply list_elem_of_singleton in Hx'. now subst x.
    + intros x Hx. apply elem_of_app in Hx as [Hx|Hx].
      * apply Hold; [assumption | simpl; rewrite length_app; lia].
      * apply list_elem_of_singleton in Hx. subst x.
        rewrite lookup_insert_eq. eexists; split; [reflexivity | exact Hlen].
Qed.

Lemma SetVolumeUnavailable_inv (vl vl' : VolumeLayout) dn vid b :
  SetVolumeUnavailable vl dn vid = Some (vl', b) ->
  layout_inv vl -> layout_inv vl' /\ repType vl' = repType vl.
Proof.
  unfold SetVolumeUnavailable. intros Hrun [Hnd Hin].
  destruct (vid2location vl !! vid) as [locs|] eqn:Hl; [|discriminate].
  unfold vll_Remove in Hrun.
  assert (Hother : forall x l', x ∈ writables vl -> x <> vid ->
            exists locs', <[vid := l']> (vid2location vl) !! x = Some locs' /\
                          vll_Length locs' >= GetCopyCount (repType vl)).
  { intros x l' Hx Hne. rewrite lookup_insert_ne by congruence. auto. }
  case_decide as Hmem.
  2:{ inversion Hrun; subst. split; [|reflexivity]. split; [assumption|].
      simpl. intros x Hx. destruct (decide (x = vid)) as [->|Hne]; [|auto].
      rewrite lookup_insert_eq. destruct (Hin vid Hx) as (lx & Hlx & Hge).
      exists locs. split; [reflexivity | congruence]. }
  case_decide as Hlen.
  - unfold removeFromWritable in Hrun. simpl in Hrun.
    case_decide as Hw; inversion Hrun; subst; (split; [|reflexivity]).
    + split; simpl; [now apply remove_first_NoDup|].
      intros x Hx. apply Hother; [eapply remove_first_elem_of; eassumption|].
      intros ->. now apply (remove_first_gone vid (writables vl)).
    + split; [assumption|]. simpl. intros x Hx.
      apply Hother; [assumption | congruence].
  - inversion Hrun; subst. split; [|reflexivity]. split; [assumption|].
    simpl. intros x Hx. destruct (decide (x = vid)) as [->|Hne]; [|auto].
    rewrite lookup_insert_eq. eexists; split; [reflexivity | lia].
Qed.

Lemma layout_step_inv (rt : ReplicationType) (vl vl' : VolumeLayout) (op : layout_op) :
  same_class rt [op] -> repType vl = rt ->
  layout_step vl op = Some vl' ->
  layout_inv vl -> layout_inv vl' /\ repType vl' = rt.
Proof.
  intros Hclass Hrt Hstep Hinv. apply Forall_cons in Hclass as [Hop _].
  destruct op as [v dn|dn vid|dn vid|vid]; simpl in Hstep.
  - inversion Hstep; subst. split.
    + apply RegisterVolume_inv; assumption.
    + apply RegisterVolume_repType.
  - destruct (SetVolumeAvailable vl dn vid) as [[vl1 b]|] eqn:Hs; [|discriminate].
    inversion Hstep; subst.
    destruct (SetVolumeAvailable_inv _ _ _ _ _ Hs Hinv); auto.
  - destruct (SetVolumeUnavailable vl dn vid) as [[vl1 b]|] eqn:Hs; [|discriminate].
    inversion Hstep; subst.
    destruct (SetVolumeUnavailable_inv _ _ _ _ _ Hs Hinv); auto.
  - inversion Hstep; subst. split.
    + now apply removeFromWritable_inv.
    + unfold SetVolumeCapacityFull, removeFromWritable. case_decide; reflexivity.
Qed.

Lemma layout_run_inv (rt : ReplicationType) (ops : list layout_op) :
  forall vl vl', same_class rt ops -> repType vl = rt ->
    layout_run vl ops = Some vl' ->
    layout_inv vl -> layout_inv vl' /\ repType vl' = rt.
Proof.
  induction ops as [|op ops IH]; intros vl vl' Hclass Hrt Hrun Hinv; simpl in Hrun.
  - inversion Hrun; subst. auto.
  - apply Forall_cons in Hclass as [Hop Hclass].
    destruct (layout_step vl op) as [vl1|] eqn:Hstep; [|discriminate].
    destruct (layout_step_inv rt vl vl1 op) as [Hinv1 Hrt1]; auto.
    { constructor; [assumption | constructor]. }
    eapply IH; eauto.
Qed.

Lemma RegisterVolume_entry (vl : VolumeLayout) v dn vid :
  vid ∈ writables (RegisterVolume vl v dn) -> vid ∉ writables vl ->
  vid = Id v /\ isWritable vl v = true.
Proof.
  rewrite RegisterVolume_writables. cbv zeta. intros Hin Hout.
  destruct (snd _); [|contradiction].
  case_decide; [|contradiction].
  destruct (isWritable vl v); [|contradiction].
  apply elem_of_app in Hin as [Hin|Hin]; [contradiction|].
  apply list_elem_of_singleton in Hin. auto.
Qed.

Lemma isWritable_true (vl : VolumeLayout) (v : VolumeInfo) :
  isWritable vl v = true <->
  u64 (VSize v) < volumeSizeLimit vl /\ Version v = CurrentVersion /\ ReadOnly v = false.
Proof.
  unfold isWritable. rewrite !andb_true_iff, !bool_decide_eq_true, negb_true_iff.
  tauto.
Qed.

Lemma SetVolumeAvailable_new_node (vl : VolumeLayout) (dn : DataNode) (vid : Z)
    (locs : VolumeLocationList) :
  vid2location vl !! vid = Some locs ->
  dn ∉ vll_list locs ->
  exists vl' b,
    SetVolumeAvailable vl dn vid = Some (vl', b) /\
    (vll_Length locs + 1 >= GetCopyCount (repType vl) -> vid ∈ writables vl') /\
    (vll_Length locs + 1 < GetCopyCount (repType vl) -> writables vl' = writables vl).
Proof.
  intros Hl Hnew. unfold SetVolumeAvailable, vll_Add. rewrite Hl.
  destruct (decide (dn ∈ vll_list locs)) as [Hin|_]; [contradiction|].
  assert (Hlen : vll_Length (mkLocations (vll_list locs ++ [dn])) = vll_Length locs + 1).
  { unfold vll_Length. simpl. rewrite length_app. simpl. lia. }
  rewrite Hlen.
  destruct (decide (vll_Length locs + 1 >= GetCopyCount (repType vl))) as [Hge|Hlt].
  - unfold setVolumeWritable. cbn [writables].
    destruct (decide (vid ∈ writables vl)) as [Hw|Hnw].
    + do 2 eexists. split; [reflexivity|]. split; [intros _; exact Hw | lia].
    + do 2 eexists. split; [reflexivity|]. cbn [writables fst].
      split; [|lia]. intros _. apply elem_of_app. right. apply list_elem_of_here.
  - do 2 eexists. split; [reflexivity|]. cbn [writables].
    split; [intros Hge; contradiction | reflexivity].
Qed.

(** C4, amended.  In every state that a run of [RegisterVolume],
    [SetVolumeAvailable], [SetVolumeUnavailable] and
    [SetVolumeCapacityFull] reaches from a fresh layout (the registered
    volumes being of the layout's replication class), a volume id is in
    the writable set only if its location list holds at least the
    required copy count.  Size, version and the read-only flag are
    examined by [RegisterVolume] alone: an id that it adds to the
    writable set was reported below the size limit, at the current
    version and not read-only.  [SetVolumeAvailable] goes by the replica
    count alone: for a known id and a node new to its location list, the
    id is in the writable set afterwards if the list thereby holds at
    least the required copy count, whatever was reported about the
    volume, and the writable set is left as it was if it does not. *)
Theorem writable_only_if_replicated (rt : ReplicationType) (limit pulse0 : Z)
    (ops : list layout_op) (vl : VolumeLayout) :
  same_class rt ops ->
  layout_run (NewVolumeLayout rt limit pulse0) ops = Some vl ->
  (forall vid, vid ∈ writables vl ->
     exists locs, vid2location vl !! vid = Some locs /\
                  vll_Length locs >= GetCopyCount rt) /\
  (forall v dn vid,
     vid ∈ writables (RegisterVolume vl v dn) -> vid ∉ writables vl ->
     vid = Id v /\ u64 (VSize v) < volumeSizeLimit vl /\
     Version v = CurrentVersion /\ ReadOnly v = false) /\
  (forall dn vid locs,
     vid2location vl !! vid = Some locs -> dn ∉ vll_list locs ->
     exists vl' b,
       SetVolumeAvailable vl dn vid = Some (vl', b) /\
       (vll_Length locs + 1 >= GetCopyCount rt -> vid ∈ writables vl') /\
       (vll_Length locs + 1 < GetCopyCount rt -> writables vl' = writables vl)).
Proof.
  intros Hclass Hrun.
  destruct (layout_run_inv rt ops (NewVolumeLayout rt limit pulse0) vl
              Hclass eq_refl Hrun (layout_inv_new _ _ _)) as [[_ Hin] Hrt].
  split; [|split].
  - intros vid Hvid. rewrite <- Hrt. auto.
  - intros v dn vid Hnew Hold.
    destruct (RegisterVolume_entry _ _ _ _ Hnew Hold) as [-> Hw].
    apply isWritable_true in Hw. tauto.
  - intros dn vid locs Hl Hnew. rewrite <- Hrt.
    now apply SetVolumeAvailable_new_node.
Qed.
End LayoutInvariant.

(** C4 as stated fails through [SetVolumeAvailable].  Volume 1, one copy
    required, is reported by node 7 with size 1000, the limit itself, and
    is not made writable; when node 8 then becomes available for it, the
    id enters the writable set although the size reported for the volume
    is not below the limit. *)
Lemma SetVolumeAvailable_makes_full_volume_writable :
  let ops := [@LRegister demo_storage (vol1 1000 false) 7%nat; LAvailable 8%nat 1] in
  @same_class demo_storage 1 ops /\
  writables <$> layout_run layout0 [@LRegister demo_storage (vol1 1000 false) 7%nat]
    = Some [] /\
  writables <$> layout_run layout0 ops = Some [1] /\
  last_report ops 1 None = Some (vol1 1000 false) /\
  ~ (u64 (VSize (vol1 1000 false)) < volumeSizeLimit layout0) /\
  isWritable layout0 (vol1 1000 false) = false.
Proof.
  cbv zeta. split.
  { repeat constructor. }
  vm_compute. repeat split; congruence.
Qed.

Lemma writable_only_if_replicated_witness :
  exists locs,
    vid2location (@RegisterVolume demo_storage layout0 (vol1 10 false) 7%nat) !! 1
      = Some locs /\
    vll_Length locs >= 1.
Proof.
  refine (proj1 (@writable_only_if_replicated demo_storage 1 1000 5
                   [LRegister (vol1 10 false) 7%nat]
                   (RegisterVolume layout0 (vol1 10 false) 7%nat) _ _) 1 _).
  - repeat constructor.
  - reflexivity.
  - vm_compute. apply list_elem_of_here.
Defined.

(* ===================================================================== *)
(** ** The codec *)
(* ===================================================================== *)

(** Linear arithmetic with division and remainder by a constant. *)
Ltac div_lia := zify; Z.to_euclidean_division_equations; lia.

Lemma byte_to_Z_range (b : byte) : 0 <= byte_to_Z b < 256.
Proof. unfold byte_to_Z. pose proof (Byte.to_N_bounded b). lia. Qed.

Lemma byte_to_of_Z (z : Z) : byte_to_Z (byte_of_Z z) = z mod 256.
Proof.
  unfold byte_to_Z, byte_of_Z.
  assert (Hr : 0 <= z mod 256 < 256) by (apply Z.mod_pos_bound; lia).
  destruct (Byte.of_N (Z.to_N (z mod 256))) as [b|] eqn:E.
  - apply Byte.to_of_N in E. rewrite E. lia.
  - apply Byte.of_N_None_iff in E. lia.
Qed.

Lemma length_be_encode (n : nat) (v : Z) : length (be_encode n v) = n.
Proof. induction n as [|n IH]; simpl; [reflexivity | now rewrite IH]. Qed.

Lemma be_decode_encode (n : nat) :
  forall v acc,
    be_decode (be_encode n v) acc = acc * 256 ^ Z.of_nat n + v mod 256 ^ Z.of_nat n.
Proof.
  induction n as [|n IH]; intros v acc.
  - simpl. rewrite Z.mod_1_r. lia.
  - cbn [be_encode be_decode]. rewrite IH, byte_to_of_Z.
    rewrite Z.shiftl_mul_pow2 by lia. rewrite Z.shiftr_div_pow2 by lia.
    replace (2 ^ (8 * Z.of_nat n)) with (256 ^ Z.of_nat n)
      by (rewrite Z.pow_mul_r by lia; reflexivity).
    rewrite Nat2Z.inj_succ, Z.pow_succ_r by lia.
    assert (Hpos : 0 < 256 ^ Z.of_nat n) by (apply Z.pow_pos_nonneg; lia).
    rewrite (Z.mul_comm 256 (256 ^ Z.of_nat n)).
    rewrite (Z.rem_mul_r v (256 ^ Z.of_nat n) 256) by lia.
    change (2 ^ 8) with 256. ring.
Qed.

Lemma BytesToUint64_Uint64toBytes (v : Z) :
  is_u64 v -> BytesToUint64 (Uint64toBytes v) = v.
Proof.
  intros Hv. unfold BytesToUint64, Uint64toBytes, u64, is_u64 in *.
  rewrite be_decode_encode. change (256 ^ Z.of_nat 8) with (2 ^ 64).
  rewrite Z.mul_0_l, Z.add_0_l, Z.mod_mod by lia. now apply Z.mod_small.
Qed.

Lemma BytesToUint32_Uint32toBytes (v : Z) :
  is_u32 v -> BytesToUint32 (Uint32toBytes v) = v.
Proof.
  intros Hv. unfold BytesToUint32, Uint32toBytes, u32, is_u32 in *.
  rewrite be_decode_encode. change (256 ^ Z.of_nat 4) with (2 ^ 32).
  rewrite Z.mul_0_l, Z.add_0_l, Z.mod_mod by lia. now apply Z.mod_small.
Qed.

(** ** Slices *)

Lemma slice_app_front {A} (a l : list A) (n : nat) :
  length a = n -> slice (a ++ l) 0 n = a.
Proof. intros Hn. unfold slice. simpl. now apply take_app_length'. Qed.

Lemma slice_app_skip {A} (a l : list A) (n lo hi : nat) :
  length a = n -> slice (a ++ l) (n + lo) (n + hi) = slice l lo hi.
Proof.
  intros Hn. unfold slice. subst n.
  rewrite take_app_add. rewrite drop_app_add. reflexivity.
Qed.

Lemma slice_all {A} (l : list A) (n : nat) : length l = n -> slice l 0 n = l.
Proof. intros Hn. unfold slice. simpl. apply take_ge. lia. Qed.

(** A slice of a row that lies inside the filled part of the buffer. *)
Lemma slice_row {A} (l : list A) (count i a b : nat) :
  (b <= 16)%nat -> (i + 16 <= count)%nat ->
  slice (take 16 (slice l i count)) a b = slice l (i + a) (i + b).
Proof.
  intros Hb Hi. unfold slice.
  rewrite take_take. replace (b `min` 16)%nat with b by lia.
  rewrite take_drop_commute, take_take.
  replace ((i + b) `min` count)%nat with (i + b)%nat by lia.
  now rewrite drop_drop.
Qed.

Lemma length_record_bytes (key offset size : Z) :
  length (record_bytes key offset size) = 16%nat.
Proof.
  unfold record_bytes, Uint64toBytes, Uint32toBytes.
  now rewrite !length_app, !length_be_encode.
Qed.

Lemma decode_record_bytes (key offset size : Z) :
  is_u64 key -> is_u32 offset -> is_u32 size ->
  decode_record (record_bytes key offset size) = (key, offset, size).
Proof.
  intros Hk Ho Hs. unfold decode_record, record_bytes.
  rewrite slice_app_front by apply length_be_encode.
  rewrite (slice_app_skip _ _ 8 0 4) by apply length_be_encode.
  rewrite slice_app_front by apply length_be_encode.
  rewrite (slice_app_skip _ _ 8 4 8) by apply length_be_encode.
  rewrite (slice_app_skip _ _ 4 0 4) by apply length_be_encode.
  rewrite slice_all by apply length_be_encode.
  now rewrite BytesToUint64_Uint64toBytes, !BytesToUint32_Uint32toBytes.
Qed.

(** ** Records of a log *)

Lemma records_n_app (k : nat) :
  forall (j : nat) (a b : list byte),
    length a = (16 * k)%nat ->
    records_n (k + j) (a ++ b) = records_n k a ++ records_n j b.
Proof.
  induction k as [|k IH]; intros j a b Hlen.
  - destruct a; [reflexivity | simpl in Hlen; lia].
  - cbn [Nat.add records_n].
    rewrite take_app_le by lia. rewrite drop_app_le by lia.
    rewrite IH by (rewrite length_drop; lia). reflexivity.
Qed.

Lemma complete_records_app (k : nat) (a b : list byte) :
  length a = (16 * k)%nat ->
  complete_records (a ++ b) = records_n k a ++ complete_records b.
Proof.
  intros Hlen. unfold complete_records. rewrite length_app.
  replace ((length a + length b) / 16)%nat with (k + length b / 16)%nat by div_lia.
  now apply records_n_app.
Qed.

Lemma records_n_front (k : nat) (a b : list byte) :
  length a = (16 * k)%nat -> records_n k (a ++ b) = records_n k a.
Proof.
  intros Hlen. rewrite <- (Nat.add_0_r k) at 1.
  rewrite records_n_app by assumption. apply app_nil_r.
Qed.

Lemma complete_records_short (l : list byte) :
  (length l < 16)%nat -> complete_records l = [].
Proof.
  intros Hl. unfold complete_records.
  replace (length l / 16)%nat with 0%nat by div_lia. reflexivity.
Qed.

Lemma walk_records_app {St} (fn : St -> Z -> Z -> Z -> St * option error)
    (rs1 rs2 : list (Z * Z * Z)) :
  forall s,
    walk_records fn s (rs1 ++ rs2) =
      match walk_records fn s rs1 with
      | (s1, None) => walk_records fn s1 rs2
      | (s1, Some e) => (s1, Some e)
      end.
Proof.
  induction rs1 as [|[[k o] z] rs1 IH]; intros s; simpl.
  - reflexivity.
  - destruct (fn s k o z) as [s' [e|]]; [reflexivity | apply IH].
Qed.

(** ** Reading the index file *)

Lemma next_outcome_no_error (f : File) (o : io_outcome) (sc : list io_outcome) :
  no_read_error (f_script f) -> next_outcome f = (o, sc) ->
  (forall n msg, o <> IoErr n msg) /\ no_read_error sc.
Proof.
  unfold next_outcome, no_read_error. intros Hok Hnext.
  destruct (f_script f) as [|o' sc'].
  - inversion Hnext; subst. split; [discriminate | constructor].
  - inversion Hnext; subst. apply Forall_cons in Hok as [Ho Hsc].
    split; [|assumption]. intros n msg ->. exact Ho.
Qed.

Lemma file_Read_cases (f : File) (len : nat) :
  no_read_error (f_script f) -> (0 < len)%nat ->
  exists f1 chunk e1,
    file_Read f len = (f1, (chunk, e1)) /\
    f_data f1 = f_data f /\ no_read_error (f_script f1) /\
    ((unread f = [] /\ unread f1 = [] /\ chunk = [] /\ e1 = Some io_EOF) \/
     (e1 = None /\ (0 < length chunk <= len)%nat /\ unread f = chunk ++ unread f1)).
Proof.
  intros Hok Hlen. unfold file_Read, unread.
  destruct (next_outcome f) as [o sc] eqn:Hnext.
  destruct (next_outcome_no_error f o sc Hok Hnext) as [Hne Hsc].
  assert (Hgen : forall want, (1 <= want)%nat ->
    exists f1 chunk e1,
      (if decide ((length (f_data f) - f_pos f)%nat = 0%nat)
       then (mkFile (f_name f) (f_data f) (f_pos f) sc, ([], Some io_EOF))
       else
         (mkFile (f_name f) (f_data f)
                 (f_pos f + len `min` ((length (f_data f) - f_pos f) `min` want)) sc,
          (take (len `min` ((length (f_data f) - f_pos f) `min` want))
                (drop (f_pos f) (f_data f)), None)))
        = (f1, (chunk, e1)) /\
      f_data f1 = f_data f /\ no_read_error (f_script f1) /\
      ((drop (f_pos f) (f_data f) = [] /\ drop (f_pos f1) (f_data f1) = [] /\
        chunk = [] /\ e1 = Some io_EOF) \/
       (e1 = None /\ (0 < length chunk <= len)%nat /\
        drop (f_pos f) (f_data f) = chunk ++ drop (f_pos f1) (f_data f1)))).
  { intros want Hwant. case_decide as Havail.
    - do 3 eexists. split; [reflexivity|]. simpl. split; [reflexivity|].
      split; [assumption|]. left.
      rewrite drop_ge by lia. auto.
    - do 3 eexists. split; [reflexivity|]. simpl. split; [reflexivity|].
      split; [assumption|]. right. split; [reflexivity|].
      rewrite length_take, length_drop. split; [lia|].
      rewrite <- drop_drop. now rewrite take_drop. }
  destruct o as [|k|n msg].
  - apply (Hgen len). lia.
  - apply (Hgen (Nat.max 1 k)). lia.
  - exfalso. eapply Hne. reflexivity.
Qed.

Section WalkFacts.
Context {St : Type} (fn : St -> Z -> Z -> Z -> St * option error).

Lemma for_rows_spec (k : nat) :
  forall fuel bytes count i s,
    (i <= count)%nat -> ((count - i) / 16 = k)%nat -> (k < fuel)%nat ->
    exists i',
      for_rows fn fuel bytes count i s =
        Some (fst (walk_records fn s (records_n k (slice bytes i count))), i',
              snd (walk_records fn s (records_n k (slice bytes i count)))) /\
      (snd (walk_records fn s (records_n k (slice bytes i count))) = None ->
       i' = (i + 16 * k)%nat).
Proof.
  induction k as [|k IH]; intros fuel bytes count i s Hi Hk Hfuel;
    (destruct fuel as [|fuel]; [lia|]); cbn [for_rows].
  - case_decide as Hrow; [exfalso; div_lia|].
    exists i. simpl. split; [reflexivity | lia].
  - case_decide as Hrow; [|exfalso; div_lia].
    cbn [records_n walk_records]. unfold decode_record.
    rewrite !slice_row by lia. rewrite Nat.add_0_r.
    destruct (fn s _ _ _) as [s' [e|]].
    + exists i. simpl. split; [reflexivity | discriminate].
    + replace (drop 16 (slice bytes i count)) with (slice bytes (i + 16) count)
        by (unfold slice; now rewrite drop_drop).
      destruct (IH fuel bytes count (i + 16)%nat s') as (i' & Heq & Hi');
        [lia | div_lia | lia |].
      exists i'. split; [exact Heq|]. intros Hnone. rewrite (Hi' Hnone). lia.
Qed.

Lemma walk_loop_spec (fuel : nat) :
  forall r bytes count e s,
    no_read_error (f_script r) ->
    (16 <= length bytes)%nat -> (count <= length bytes)%nat ->
    loop_pre r count e -> fuel_ok r e fuel ->
    exists r',
      walk_loop fn fuel r bytes count e s =
        Some (r',
              fst (walk_records fn s (complete_records (take count bytes ++ unread r))),
              snd (walk_records fn s (complete_records (take count bytes ++ unread r))))
      /\ f_data r' = f_data r.
Proof.
  induction fuel as [|fuel IH]; intros r bytes count e s Hok Hbuf Hcount Hpre Hfuel.
  { destruct e; simpl in Hfuel; lia. }
  cbn [walk_loop].
  destruct Hpre as [[-> Hpos] | (-> & Hrest & Hshort)].
  2:{ case_decide as Hgo; [destruct Hgo; discriminate|]. simpl.
      rewrite Hrest, app_nil_r.
      rewrite complete_records_short by (rewrite length_take; lia).
      exists r. split; reflexivity. }
  case_decide as Hgo; [|exfalso; apply Hgo; split; [lia | reflexivity]].
  simpl in Hfuel.
  set (k := (count / 16)%nat).
  set (pending := take count bytes).
  assert (Hpending : length pending = count) by (apply length_take_le; lia).
  assert (Hsl : slice bytes 0 count = pending) by reflexivity.
  destruct (for_rows_spec k (S count) bytes count 0 s) as (i & Hrows & Hi);
    [lia | subst k; div_lia | subst k; div_lia |].
  rewrite Hrows, Hsl in *. clear Hrows.
  (* the log splits into the rows of the buffer and what follows them *)
  assert (Hsplit : complete_records (pending ++ unread r) =
            records_n k pending
              ++ complete_records (drop (16 * k) pending ++ unread r)).
  { rewrite <- (take_drop (16 * k) pending) at 1.
    rewrite <- app_assoc.
    rewrite (complete_records_app k) by (rewrite length_take; subst k; div_lia).
    f_equal. rewrite <- (take_drop (16 * k) pending) at 2.
    symmetry. apply records_n_front. rewrite length_take. subst k. div_lia. }
  rewrite Hsplit, walk_records_app.
  destruct (walk_records fn s (records_n k pending)) as [s1 [err|]];
    cbn [fst snd] in *.
  { exists r. split; reflexivity. }
  specialize (Hi eq_refl). rewrite Nat.add_0_l in Hi. subst i.
  set (leftover := drop (16 * k) pending) in *.
  assert (Hleft : length leftover = (count - 16 * k)%nat)
    by (subst leftover; rewrite length_drop; lia).
  (* one read and the rest of the loop, for both branches *)
  assert (Hnext : forall bytes1 i1,
    length bytes1 = length bytes -> i1 = (count - 16 * k)%nat ->
    take i1 bytes1 = leftover ->
    exists r',
      (let '(r1, (chunk, e1)) := file_Read r (length bytes1 - i1) in
       walk_loop fn fuel r1
         (take i1 bytes1 ++ chunk ++ drop (i1 + length chunk) bytes1)
         (length chunk + i1) e1 s1) =
      Some (r',
            fst (walk_records fn s1 (complete_records (leftover ++ unread r))),
            snd (walk_records fn s1 (complete_records (leftover ++ unread r))))
      /\ f_data r' = f_data r).
  { intros bytes1 i1 Hlen1 Hi1 Htake.
    assert (Hi1' : (i1 < 16)%nat) by (subst i1 k; div_lia).
    destruct (file_Read_cases r (length bytes1 - i1) Hok) as
      (r1 & chunk & e1 & Hread & Hdata & Hok1 & Hcase); [lia|].
    rewrite Hread.
    assert (Htake2 : take (length chunk + i1)
              (take i1 bytes1 ++ chunk ++ drop (i1 + length chunk) bytes1)
            = leftover ++ chunk).
    { rewrite Htake. rewrite app_assoc.
      apply take_app_length'. rewrite length_app. lia. }
    destruct Hcase as [(Hr & Hr1 & -> & ->) | (-> & Hchunk & Hr)].
    - destruct (IH r1 (take i1 bytes1 ++ [] ++ drop (i1 + 0) bytes1)
                  (0 + i1)%nat (Some io_EOF) s1) as (r' & Hloop & Hdata');
        [assumption
        | rewrite !length_app, length_take, length_drop; simpl; lia
        | rewrite !length_app, length_take, length_drop; simpl; lia
        | right; split; [reflexivity|]; split; [assumption | lia]
        | simpl; lia |].
      simpl in Htake2. simpl in Hloop. rewrite Htake2, Hr1 in Hloop.
      exists r'. simpl. rewrite Hloop, Hr, !app_nil_r. split; [reflexivity | congruence].
    - destruct (IH r1 (take i1 bytes1 ++ chunk ++ drop (i1 + length chunk) bytes1)
                  (length chunk + i1)%nat None s1) as (r' & Hloop & Hdata');
        [assumption
        | rewrite !length_app, length_take, length_drop; lia
        | rewrite !length_app, length_take, length_drop; lia
        | left; split; [reflexivity | lia]
        | simpl; rewrite Hr, length_app in Hfuel; lia |].
      rewrite Htake2, <- app_assoc, <- Hr in Hloop.
      exists r'. rewrite Hloop. split; [reflexivity | congruence]. }
  case_decide as Hmod.
  - assert (Hsrc : slice bytes (16 * k) count = leftover) by reflexivity.
    rewrite Hsrc, Hleft, Nat.min_id.
    rewrite (take_ge leftover) by lia.
    apply (Hnext (leftover ++ drop (count - 16 * k) bytes) (count - 16 * k)%nat).
    + rewrite length_app, length_drop. lia.
    + reflexivity.
    + apply take_app_length'. lia.
  - assert (Hz : (count - 16 * k = 0)%nat) by (subst k; div_lia).
    destruct (Hnext bytes 0%nat) as (r' & Hloop & Hdata'); [reflexivity | lia | |].
    { simpl. subst leftover. rewrite drop_ge by lia. reflexivity. }
    rewrite Nat.sub_0_r in Hloop. simpl in Hloop.
    destruct (file_Read r (length bytes)) as [r1 [chunk e1]].
    rewrite Nat.add_0_r in Hloop.
    exists r'. split; [exact Hloop | exact Hdata'].
Qed.
End WalkFacts.

Lemma walkIndexFile_spec {St} (fn : St -> Z -> Z -> Z -> St * option error)
    (r : File) (s : St) :
  no_read_error (f_script r) ->
  exists r',
    walkIndexFile fn r s =
      Some (r',
            fst (walk_records fn s (complete_records (unread r))),
            snd (walk_records fn s (complete_records (unread r))))
    /\ f_data r' = f_data r.
Proof.
  intros Hok. unfold walkIndexFile.
  set (buf := replicate (16 * RowsToRead) x00).
  assert (Hbuf : length buf = (16 * RowsToRead)%nat) by apply length_replicate.
  assert (Hrows : (16 <= 16 * RowsToRead)%nat) by (unfold RowsToRead; lia).
  destruct (file_Read_cases r (length buf) Hok) as
    (r1 & chunk & e1 & Hread & Hdata & Hok1 & Hcase); [lia|].
  rewrite Hread.
  assert (Htake : take (length chunk) (chunk ++ drop (length chunk) buf) = chunk)
    by apply take_app_length.
  destruct Hcase as [(Hr & Hr1 & -> & ->) | (-> & Hchunk & Hr)].
  - destruct (walk_loop_spec fn (length (f_data r) + 2) r1
                ([] ++ drop 0 buf) 0%nat (Some io_EOF) s) as (r' & Hloop & Hdata');
      [assumption | simpl; lia | lia
      | right; split; [reflexivity|]; split; [assumption | lia]
      | simpl; lia |].
    simpl in Hloop. rewrite Hr1 in Hloop.
    exists r'. simpl. rewrite Hloop, Hr. split; [reflexivity | congruence].
  - destruct (walk_loop_spec fn (length (f_data r) + 2) r1
                (chunk ++ drop (length chunk) buf) (length chunk) None s)
      as (r' & Hloop & Hdata');
      [assumption
      | rewrite length_app, length_drop; lia
      | rewrite length_app, length_drop; lia
      | left; split; [reflexivity | lia]
      | |].
    { simpl. assert (Hlen : (length (unread r) <= length (f_data r))%nat)
        by (unfold unread; rewrite length_drop; lia).
      rewrite Hr, length_app in Hlen. lia. }
    rewrite Htake, <- Hr in Hloop.
    exists r'. rewrite Hloop. split; [reflexivity | congruence].
Qed.

Lemma load_record_no_error (nm : NeedleMap) (key offset size : Z) :
  snd (load_record nm key offset size) = None.
Proof.
  unfold load_record, cm_Set, cm_Delete.
  repeat case_decide; reflexivity.
Qed.

Lemma walk_load_no_error (rs : list (Z * Z * Z)) :
  forall nm, snd (walk_records load_record nm rs) = None.
Proof.
  induction rs as [|[[k o] z] rs IH]; intros nm; simpl; [reflexivity|].
  pose proof (load_record_no_error nm k o z) as Hn.
  destruct (load_record nm k o z) as [nm' e]. simpl in Hn. subst e. apply IH.
Qed.

Lemma load_all_cons (nm : NeedleMap) (key offset size : Z) (rs : list (Z * Z * Z)) :
  load_all nm ((key, offset, size) :: rs) =
    load_all (fst (load_record nm key offset size)) rs.
Proof.
  unfold load_all. simpl.
  pose proof (load_record_no_error nm key offset size) as Hn.
  destruct (load_record nm key offset size) as [nm' e]. simpl in *. now subst e.
Qed.

Lemma LoadNeedleMap_spec (file : File) :
  no_read_error (f_script file) ->
  exists nm,
    LoadNeedleMap file = Some (nm, None) /\
    m nm = m (load_all (NewNeedleMap file) (complete_records (unread file))) /\
    metric nm = metric (load_all (NewNeedleMap file) (complete_records (unread file))) /\
    f_data (indexFile nm) = f_data file.
Proof.
  intros Hok. unfold LoadNeedleMap.
  destruct (walkIndexFile_spec load_record file (NewNeedleMap file) Hok)
    as (r' & Hwalk & Hdata).
  rewrite Hwalk, walk_load_no_error.
  eexists. split; [reflexivity|]. simpl. auto.
Qed.

Lemma length_records_n (k : nat) : forall l, length (records_n k l) = k.
Proof. induction k as [|k IH]; intros l; simpl; [reflexivity | now rewrite IH]. Qed.

Lemma records_n_lookup (k : nat) :
  forall (l : list byte) (j : nat),
    (j < k)%nat ->
    records_n k l !! j = Some (decode_record (slice l (16 * j) (16 * j + 16))).
Proof.
  induction k as [|k IH]; intros l j Hj; [lia|].
  destruct j as [|j]; cbn [records_n lookup list_lookup].
  - reflexivity.
  - rewrite IH by lia. do 2 f_equal. unfold slice.
    rewrite take_drop_commute, drop_drop. f_equal; [lia|]. f_equal. lia.
Qed.

(** C7.  On a log whose length is not a multiple of 16, read from its
    start in chunks of any sizes, [walkIndexFile] calls the callback on the
    complete leading records, each once and in log order (record [j] is
    decoded from bytes [16j .. 16j+16)), stops before the partial last
    record and returns no error unless the callback returned one;
    [LoadNeedleMap], whose callback never fails, returns success. *)
Theorem replay_stops_at_partial_record {St}
    (fn : St -> Z -> Z -> Z -> St * option error) (r : File) (s : St) :
  f_pos r = 0%nat ->
  (length (f_data r) mod 16 <> 0)%nat ->
  no_read_error (f_script r) ->
  let recs := complete_records (f_data r) in
  (exists r', walkIndexFile fn r s =
     Some (r', fst (walk_records fn s recs), snd (walk_records fn s recs))) /\
  length recs = (length (f_data r) / 16)%nat /\
  (forall j, (j < length (f_data r) / 16)%nat ->
     recs !! j = Some (decode_record (slice (f_data r) (16 * j) (16 * j + 16)))) /\
  (exists r', walkIndexFile log_record r [] = Some (r', recs, None)) /\
  (exists nm, LoadNeedleMap r = Some (nm, None) /\
     m nm = m (load_all (NewNeedleMap r) recs) /\
     metric nm = metric (load_all (NewNeedleMap r) recs)).
Proof.
  intros Hpos _ Hok. cbv zeta.
  assert (Hun : unread r = f_data r) by (unfold unread; now rewrite Hpos).
  split; [|split; [|split; [|split]]].
  - destruct (walkIndexFile_spec fn r s Hok) as (r' & Hwalk & _).
    rewrite Hun in Hwalk. eauto.
  - apply length_records_n.
  - intros j Hj. now apply records_n_lookup.
  - destruct (walkIndexFile_spec log_record r [] Hok) as (r' & Hwalk & _).
    rewrite Hun in Hwalk. exists r'. rewrite Hwalk. do 2 f_equal.
    + f_equal.
      assert (Hlog : forall rs seen, fst (walk_records log_record seen rs) = seen ++ rs).
      { induction rs as [|[[k o] z] rs IH]; intros seen; simpl.
        - now rewrite app_nil_r.
        - rewrite IH, <- app_assoc. reflexivity. }
      apply (Hlog _ []).
    + generalize (@nil (Z * Z * Z)) at 1. generalize (complete_records (f_data r)).
      intros rs. induction rs as [|[[k o] z] rs IH]; intros seen; simpl; auto.
  - destruct (LoadNeedleMap_spec r Hok) as (nm & Hload & Hm & Hmt & _).
    rewrite Hun in *. eauto.
Qed.

Lemma replay_stops_at_partial_record_witness :
  exists r', walkIndexFile log_record torn_log [] = Some (r', [(100, 5, 200)], None).
Proof.
  destruct (proj1 (proj2 (proj2 (proj2
    (replay_stops_at_partial_record log_record torn_log [] eq_refl
       ltac:(vm_compute; discriminate) ltac:(repeat constructor))))))
    as [r' Hwalk].
  exists r'. rewrite Hwalk. reflexivity.
Defined.

(* ===================================================================== *)
(** ** A run of operations and its replay *)
(* ===================================================================== *)

Lemma int_wrap_idemp_l (a b : Z) : int_wrap (int_wrap a + b) = int_wrap (a + b).
Proof.
  unfold int_wrap. f_equal.
  replace ((a + 2 ^ 63) mod 2 ^ 64 - 2 ^ 63 + b + 2 ^ 63)
    with ((a + 2 ^ 63) mod 2 ^ 64 + b) by ring.
  rewrite Zplus_mod_idemp_l. f_equal. ring.
Qed.

Lemma u64_range (z : Z) : is_u64 (u64 z).
Proof. unfold is_u64, u64. apply Z.mod_pos_bound. lia. Qed.

Lemma u64_id (z : Z) : is_u64 z -> u64 z = z.
Proof. unfold is_u64, u64. intros Hz. now apply Z.mod_small. Qed.

Lemma write_at_end (data b : list byte) : write_at data (length data) b = data ++ b.
Proof.
  unfold write_at. rewrite take_ge by lia. rewrite Nat.sub_diag. simpl.
  rewrite drop_ge by lia. now rewrite app_nil_r.
Qed.

Lemma Write_ok (f f' : File) (b : list byte) (n : nat) :
  file_Write f b = (f', (n, None)) ->
  f_data f' = write_at (f_data f) (f_pos f) b /\ f_pos f' = (f_pos f + length b)%nat.
Proof.
  unfold file_Write. destruct (next_outcome f) as [o rest].
  intros Heq. inversion Heq as [[Hf Hn He]]. clear Heq.
  assert (Hfull : n = length b).
  { destruct o; [now subst | | discriminate].
    rewrite Hn in He. case_decide; [assumption | discriminate]. }
  rewrite Hn, Hfull. simpl. now rewrite take_ge by lia.
Qed.

Lemma Write_ok_at_end (f f' : File) (b : list byte) (n : nat) :
  at_end f -> file_Write f b = (f', (n, None)) ->
  f_data f' = f_data f ++ b /\ at_end f'.
Proof.
  unfold at_end. intros Hend Hw. destruct (Write_ok _ _ _ _ Hw) as [Hd Hp].
  rewrite Hend, write_at_end in Hd. split; [assumption|].
  rewrite Hp, Hd, length_app. lia.
Qed.

(** What a successful operation does to the index. *)
Lemma run_op_ok (nm nm' : NeedleMap) (op : index_op) :
  at_end (indexFile nm) -> run_op nm op = (nm', None) ->
  f_data (indexFile nm') = f_data (indexFile nm) ++ op_bytes op /\
  at_end (indexFile nm') /\
  match op with
  | OpPut key offset size =>
      m nm' = <[key := mkNeedleValue key offset size]> (m nm) /\
      metric nm' = metric (fst (Put nm key offset size))
  | OpDelete key =>
      m nm' = delete key (m nm) /\
      metric nm' =
        mkMetric (int_wrap (DeletionCounter (metric nm) + 1)) (FileCounter (metric nm))
                 (u64 (DeletionByteCounter (metric nm) + oldSize_of (m nm !! key)))
                 (FileByteCounter (metric nm)) (MaximumFileKey (metric nm))
  end.
Proof.
  intros Hend Hrun. destruct op as [key offset size | key]; simpl in Hrun.
  - pose proof (Put_file nm key offset size) as Hf.
    pose proof (Put_map nm key offset size) as Hm.
    destruct (Put nm key offset size) as [nm1 [n e]]. simpl in *.
    inversion Hrun; subst. symmetry in Hf.
    destruct (Write_ok_at_end _ _ _ _ Hend Hf) as [Hd He]. auto.
  - destruct (file_Seek_current (indexFile nm)) as [f1 [off [e|]]] eqn:Hs.
    { rewrite (Delete_seek_fails _ _ _ _ _ Hs) in Hrun. discriminate. }
    destruct (Seek_current_ok _ _ _ Hs) as (Hoff & Hd1 & Hp1).
    destruct (file_Write f1 (record_bytes key 0 0)) as [f2 [n [we|]]] eqn:Hw.
    { destruct (file_Truncate f2 off) as [f3 terr] eqn:Ht.
      rewrite (Delete_write_fails _ _ _ _ _ _ _ _ _ Hs Hw Ht) in Hrun. discriminate. }
    rewrite (Delete_write_ok _ _ _ _ _ _ Hs Hw) in Hrun.
    inversion Hrun; subst. simpl.
    assert (Hend1 : at_end f1) by (unfold at_end in *; congruence).
    destruct (Write_ok_at_end _ _ _ _ Hend1 Hw) as [Hd He].
    rewrite Hd, Hd1. auto.
Qed.

Lemma run_ops_cons_ok (nm nm' : NeedleMap) (op : index_op) (ops : list index_op) :
  run_ops nm (op :: ops) = (nm', []) ->
  exists nm1, run_op nm op = (nm1, None) /\ run_ops nm1 ops = (nm', []).
Proof.
  simpl. destruct (run_op nm op) as [nm1 e].
  destruct (run_ops nm1 ops) as [nm2 es] eqn:Hrest. intros Heq.
  destruct e; inversion Heq; subst. exists nm1. split; [reflexivity | exact Hrest].
Qed.

Lemma replays_step (d : Z) (live live' ld : NeedleMap) (op : index_op) :
  valid_op op -> at_end (indexFile live) -> replays d live ld ->
  run_op live op = (live', None) ->
  let '(key, offset, size) := op_record op in
  replays (d + count_deletes [op]) live' (fst (load_record ld key offset size)).
Proof.
  intros Hvalid Hend (Hm & Hfb & Hfr & Hdc & Hdb & Hfc) Hrun.
  destruct (run_op_ok _ _ _ Hend Hrun) as (_ & _ & Hop).
  destruct op as [key offset size | key]; simpl in *.
  - destruct Hvalid as (_ & _ & Hoff & _). destruct Hop as [Hm' Hmt'].
    rewrite Put_metric in Hmt'. cbv zeta in Hmt'.
    unfold load_record, cm_Set, replays.
    destruct (decide (offset > 0)) as [_|]; [|lia].
    rewrite Hm, Hm', Hmt', Hfb, Hdc, Hdb, Hfc.
    destruct (decide (oldSize_of (m live !! key) > 0)); simpl;
      (split; [reflexivity|]; split; [reflexivity|]; split; [apply u64_range|];
       split; [reflexivity|]; split; [reflexivity|]);
      rewrite !int_wrap_idemp_l; f_equal; lia.
  - destruct Hop as [Hm' Hmt'].
    unfold load_record, cm_Delete, replays.
    destruct (decide (0 > 0)) as [|_]; [lia|].
    rewrite Hm, Hm', Hmt', Hfb, Hdc, Hdb, Hfc. simpl.
    split; [reflexivity|]. split; [rewrite Z.add_0_r; now apply u64_id|].
    split; [assumption|]. split; [reflexivity|]. split; [reflexivity|].
    rewrite int_wrap_idemp_l. f_equal. lia.
Qed.

Lemma count_deletes_cons (op : index_op) (ops : list index_op) :
  count_deletes (op :: ops) = count_deletes [op] + count_deletes ops.
Proof.
  destruct op; simpl; lia.
Qed.

Lemma run_ops_replays (ops : list index_op) :
  forall d live live' ld,
    Forall valid_op ops -> at_end (indexFile live) -> replays d live ld ->
    run_ops live ops = (live', []) ->
    replays (d + count_deletes ops) live' (load_all ld (map op_record ops)) /\
    f_data (indexFile live') = f_data (indexFile live) ++ log_of ops.
Proof.
  induction ops as [|op ops IH]; intros d live live' ld Hvalid Hend Hrep Hrun.
  - simpl in Hrun. inversion Hrun; subst. unfold load_all, log_of. simpl.
    rewrite app_nil_r, Z.add_0_r.
    auto.
  - apply Forall_cons in Hvalid as [Hop Hvalid].
    destruct (run_ops_cons_ok _ _ _ _ Hrun) as (live1 & Hrun1 & Hrest).
    pose proof (replays_step d live live1 ld op Hop Hend Hrep Hrun1) as Hstep.
    destruct (run_op_ok _ _ _ Hend Hrun1) as (Hd1 & Hend1 & _).
    cbn [map]. destruct (op_record op) as [[key offset] size] eqn:Hrec.
    rewrite load_all_cons.
    destruct (IH _ _ _ _ Hvalid Hend1 Hstep Hrest) as [Hrep' Hd'].
    split.
    + rewrite count_deletes_cons, Z.add_assoc. exact Hrep'.
    + rewrite Hd', Hd1, <- app_assoc. reflexivity.
Qed.

Lemma complete_records_log_of (ops : list index_op) :
  Forall valid_op ops -> complete_records (log_of ops) = map op_record ops.
Proof.
  induction 1 as [|op ops Hop Hvalid IH]; [reflexivity|].
  unfold log_of in *. cbn [flat_map map].
  assert (Hlen : length (op_bytes op) = (16 * 1)%nat).
  { unfold op_bytes. destruct (op_record op) as [[k o] z]. apply length_record_bytes. }
  rewrite (complete_records_app 1) by assumption. rewrite IH.
  cbn [records_n]. rewrite take_ge by lia. simpl. f_equal.
  unfold op_bytes. destruct op as [key offset size | key]; simpl in *.
  - destruct Hop as (Hk & Ho & _ & Hs). now apply decode_record_bytes.
  - apply decode_record_bytes; [assumption | | ]; unfold is_u32; lia.
Qed.

Lemma load_all_max_key (rs : list index_op) :
  forall nm,
    MaximumFileKey (metric (load_all nm (map op_record rs)))
      = max_key rs (MaximumFileKey (metric nm)).
Proof.
  induction rs as [|op rs IH]; intros nm; [reflexivity|].
  cbn [map]. destruct (op_record op) as [[key offset] size] eqn:Hrec.
  rewrite load_all_cons, IH. unfold max_key. cbn [fold_left]. rewrite Hrec. simpl.
  f_equal. unfold load_record, cm_Set, cm_Delete.
  destruct (decide (offset > 0));
    [destruct (decide (oldSize_of (m nm !! key) > 0))|]; simpl;
    destruct (decide (key > MaximumFileKey (metric nm))); lia.
Qed.

(** C2 as stated fails in three ways.  After [Put(100, 5, 200)] the live
    index still has [maximumFileKey] 0 and the reloaded one has 100.  After
    a further [Delete(100)] the live [fileCounter] is 1 and the reloaded
    one 2.  After [Put(1, 0, 7)] the live map holds key 1 and the reloaded
    map does not, offset 0 being read back as a tombstone. *)
Lemma reload_differs_from_live_index :
  (let run := run_ops fresh_index [OpPut 100 5 200] in
   snd run = [] /\ MaxFileKey (fst run) = 0 /\
   (fun r => MaxFileKey (fst r)) <$> reload (fst run) = Some 100) /\
  (let run := run_ops fresh_index [OpPut 100 5 200; OpDelete 100] in
   snd run = [] /\ FileCount (fst run) = 1 /\
   (fun r => FileCount (fst r)) <$> reload (fst run) = Some 2) /\
  (let run := run_ops fresh_index [OpPut 1 0 7] in
   snd run = [] /\ Get (fst run) 1 = Some (mkNeedleValue 1 0 7) /\
   (fun r => Get (fst r) 1) <$> reload (fst run) = Some None).
Proof. repeat split; vm_compute; reflexivity. Qed.

(** C2, amended.  Take a run of [Put] and [Delete] on an index that starts
    empty, in which no [Put] has offset 0 and every operation succeeds.
    Replaying the log it leaves, read in chunks of any sizes, succeeds and
    gives an index with the same map and the same [fileByteCounter],
    [deletionCounter] and [deletionByteCounter]; its [fileCounter] is that
    of the live index plus the number of [Delete]s, each tombstone being
    counted as a record, and its [maximumFileKey] is the largest key of the
    run. *)
Theorem reload_reproduces_index (name : string) (script script' : list io_outcome)
    (ops : list index_op) (nm : NeedleMap) :
  Forall valid_op ops ->
  run_ops (NewNeedleMap (empty_file name script)) ops = (nm, []) ->
  no_read_error script' ->
  exists nm',
    LoadNeedleMap (reopen (indexFile nm) script') = Some (nm', None) /\
    m nm' = m nm /\
    ContentSize nm' = ContentSize nm /\
    DeletedCount nm' = DeletedCount nm /\
    DeletedSize nm' = DeletedSize nm /\
    FileCount nm' = int_wrap (FileCount nm + count_deletes ops) /\
    MaxFileKey nm' = max_key ops 0.
Proof.
  intros Hvalid Hrun Hok.
  set (ld0 := NewNeedleMap (reopen (indexFile nm) script')).
  destruct (run_ops_replays ops 0 (NewNeedleMap (empty_file name script)) nm ld0)
    as [(Hm & Hfb & _ & Hdc & Hdb & Hfc) Hdata]; try assumption.
  { reflexivity. }
  { repeat split; try reflexivity; simpl; lia. }
  destruct (LoadNeedleMap_spec (reopen (indexFile nm) script') Hok)
    as (nm' & Hload & Hm' & Hmt' & _).
  assert (Hrecs : complete_records (unread (reopen (indexFile nm) script'))
                  = map op_record ops).
  { unfold unread, reopen. simpl. rewrite Hdata. simpl.
    now apply complete_records_log_of. }
  rewrite Hrecs in Hm', Hmt'. fold ld0 in Hm', Hmt'.
  exists nm'. unfold ContentSize, DeletedCount, DeletedSize, FileCount, MaxFileKey.
  rewrite Hm', Hmt', load_all_max_key. simpl in Hfc.
  repeat split; assumption.
Qed.

Lemma reload_reproduces_index_witness :
  exists nm',
    LoadNeedleMap
      (reopen (indexFile (fst (run_ops fresh_index [OpPut 100 5 200; OpPut 7 9 30;
                                                     OpDelete 100])))
              [IoShort 5; IoShort 20]) = Some (nm', None) /\
    m nm' = {[ 7 := mkNeedleValue 7 9 30 ]} /\
    FileCount nm' = 3.
Proof.
  destruct (reload_reproduces_index "1.idx" [] [IoShort 5; IoShort 20]
              [OpPut 100 5 200; OpPut 7 9 30; OpDelete 100]
              (fst (run_ops fresh_index [OpPut 100 5 200; OpPut 7 9 30; OpDelete 100])))
    as (nm' & Hload & Hm & _ & _ & _ & Hfc & _).
  - unfold valid_op, is_u64, is_u32. repeat constructor; lia.
  - vm_compute. reflexivity.
  - repeat constructor.
  - exists nm'. split; [exact Hload|]. split.
    + rewrite Hm. vm_compute. reflexivity.
    + rewrite Hfc. vm_compute. reflexivity.
Defined.

(** ** The scenario: one put, one delete, reload *)

Lemma scenario_reload_state (script' : list io_outcome) :
  no_read_error script' ->
  exists nm',
    LoadNeedleMap (reopen (indexFile scenario_index) script') = Some (nm', None) /\
    m nm' = ∅ /\
    metric nm' = mkMetric 1 2 200 200 100.
Proof.
  intros Hok.
  destruct (LoadNeedleMap_spec (reopen (indexFile scenario_index) script') Hok)
    as (nm' & Hload & Hm & Hmt & _).
  exists nm'. split; [exact Hload|]. rewrite Hm, Hmt.
  split; vm_compute; reflexivity.
Qed.

(** C3 as stated fails on two numbers: the reloaded index reports 1
    deletion, not 2, and 2 files, not 1. *)
Lemma scenario_counts_differ :
  (fun r => DeletedCount (fst r)) <$> reload scenario_index = Some 1 /\
  (fun r => DeletedCount (fst r)) <$> reload scenario_index <> Some 2 /\
  (fun r => FileCount (fst r)) <$> reload scenario_index = Some 2 /\
  (fun r => FileCount (fst r)) <$> reload scenario_index <> Some 1.
Proof. vm_compute. repeat split; congruence. Qed.

(** C3, amended.  From an empty index, [Put(100, 5, 200)], [Delete(100)]
    and a reload of the log, read in chunks of any sizes, give an index in
    which [Get(100)] finds nothing, [DeletedCount()] is 1, [FileCount()] is
    2 and [DeletedSize()] is 200. *)
Theorem scenario_put_delete_reload (script' : list io_outcome) :
  no_read_error script' ->
  exists nm',
    LoadNeedleMap (reopen (indexFile scenario_index) script') = Some (nm', None) /\
    Get nm' 100 = None /\
    DeletedCount nm' = 1 /\
    FileCount nm' = 2 /\
    DeletedSize nm' = 200.
Proof.
  intros Hok.
  destruct (scenario_reload_state script' Hok) as (nm' & Hload & Hm & Hmt).
  exists nm'. split; [exact Hload|].
  unfold Get, cm_Get, DeletedCount, FileCount, DeletedSize.
  rewrite Hm, Hmt. simpl. repeat split; reflexivity.
Qed.

Lemma scenario_put_delete_reload_witness :
  exists nm',
    LoadNeedleMap (reopen (indexFile scenario_index) [IoShort 3; IoShort 40])
      = Some (nm', None) /\
    Get nm' 100 = None /\ DeletedCount nm' = 1 /\ FileCount nm' = 2 /\
    DeletedSize nm' = 200.
Proof.
  apply (scenario_put_delete_reload [IoShort 3; IoShort 40]). repeat constructor.
Defined.

(* ===================================================================== *)
(** ** More on the needle map: lookups, the log, the high-water mark *)
(* ===================================================================== *)

Lemma Delete_map (nm : NeedleMap) (key : Z) :
  m (fst (Delete nm key)) = delete key (m nm).
Proof.
  unfold Delete, cm_Delete.
  destruct (file_Seek_current (indexFile nm)) as [f1 [off [e|]]]; [reflexivity|].
  destruct (file_Write f1 (record_bytes key 0 0)) as [f2 [n [we|]]]; [|reflexivity].
  destruct (file_Truncate f2 off) as [f3 terr]. reflexivity.
Qed.

Lemma Delete_MaximumFileKey (nm : NeedleMap) (key : Z) :
  MaximumFileKey (metric (fst (Delete nm key))) = MaximumFileKey (metric nm).
Proof.
  unfold Delete, cm_Delete.
  destruct (file_Seek_current (indexFile nm)) as [f1 [off [e|]]]; [reflexivity|].
  destruct (file_Write f1 (record_bytes key 0 0)) as [f2 [n [we|]]]; [|reflexivity].
  destruct (file_Truncate f2 off) as [f3 terr]. reflexivity.
Qed.

(** X1.  [Get] after [Put]: the key that was put is found with the offset
    and size just given, every other key is found as before, whether or not
    the append to the log succeeded. *)
Theorem Get_after_Put (nm : NeedleMap) (key offset size k : Z) :
  Get (fst (Put nm key offset size)) k =
    if decide (k = key) then Some (mkNeedleValue key offset size) else Get nm k.
Proof.
  unfold Get, cm_Get. rewrite Put_map.
  destruct (decide (k = key)) as [->|Hne].
  - apply lookup_insert_eq.
  - apply lookup_insert_ne. congruence.
Qed.

(** X2.  [Get] after [Delete]: the deleted key is not found and every other
    key is found as before, whatever the seek, the write and the truncation
    answered. *)
Theorem Get_after_Delete (nm : NeedleMap) (key k : Z) :
  Get (fst (Delete nm key)) k = if decide (k = key) then None else Get nm k.
Proof.
  unfold Get, cm_Get. rewrite Delete_map.
  destruct (decide (k = key)) as [->|Hne].
  - apply lookup_delete_eq.
  - apply lookup_delete_ne. congruence.
Qed.

(** X3.  [Delete] of a key that the map does not hold, all system calls
    succeeding on a file positioned at its end: the map is unchanged, a
    tombstone of 16 bytes is appended all the same, [deletionCounter] goes
    up by one and [deletionByteCounter] keeps its value. *)
Theorem Delete_missing_key (nm : NeedleMap) (key : Z) :
  Get nm key = None ->
  is_u64 (DeletedSize nm) ->
  at_end (indexFile nm) ->
  snd (Delete nm key) = None ->
  let nm' := fst (Delete nm key) in
  m nm' = m nm /\
  f_data (indexFile nm') = f_data (indexFile nm) ++ record_bytes key 0 0 /\
  length (f_data (indexFile nm')) = (length (f_data (indexFile nm)) + 16)%nat /\
  DeletedCount nm' = int_wrap (DeletedCount nm + 1) /\
  DeletedSize nm' = DeletedSize nm.
Proof.
  intros Hget Hrange Hend Hok. cbv zeta.
  assert (Hrun : run_op nm (OpDelete key) = (fst (Delete nm key), None)).
  { simpl. rewrite <- Hok. now destruct (Delete nm key). }
  destruct (run_op_ok _ _ _ Hend Hrun) as (Hd & _ & Hm & Hmt).
  unfold Get, cm_Get in Hget. unfold DeletedCount, DeletedSize in *.
  rewrite Hm, Hmt, Hd, Hget.
  change (op_bytes (OpDelete key)) with (record_bytes key 0 0).
  split; [now apply delete_id|]. split; [reflexivity|].
  split; [rewrite length_app, length_record_bytes; reflexivity|].
  cbn [DeletionCounter DeletionByteCounter oldSize_of].
  split; [reflexivity|]. rewrite Z.add_0_r. now apply u64_id.
Qed.

Lemma Delete_missing_key_witness :
  f_data (indexFile (fst (Delete fresh_index 9))) = record_bytes 9 0 0 /\
  DeletedCount (fst (Delete fresh_index 9)) = 1.
Proof.
  destruct (Delete_missing_key fresh_index 9) as (_ & Hd & _ & Hc & _).
  - reflexivity.
  - change (is_u64 0). unfold is_u64. lia.
  - reflexivity.
  - vm_compute. reflexivity.
  - split; [exact Hd | rewrite Hc; reflexivity].
Defined.

(** X4.  A run of [Put]s and [Delete]s in which no operation fails, on a
    file positioned at its end, appends one 16-byte record per operation,
    in order, and leaves the file positioned at its end: the log grows by
    16 times the number of operations and nothing of it is overwritten. *)
Theorem run_appends_one_record_per_op (ops : list index_op) (nm nm' : NeedleMap) :
  at_end (indexFile nm) ->
  run_ops nm ops = (nm', []) ->
  f_data (indexFile nm') = f_data (indexFile nm) ++ log_of ops /\
  length (log_of ops) = (16 * length ops)%nat /\
  at_end (indexFile nm').
Proof.
  revert nm. induction ops as [|op ops IH]; intros nm Hend Hrun.
  - simpl in Hrun. inversion Hrun; subst. unfold log_of. simpl.
    now rewrite app_nil_r.
  - destruct (run_ops_cons_ok _ _ _ _ Hrun) as (nm1 & Hop & Hrest).
    destruct (run_op_ok _ _ _ Hend Hop) as (Hd1 & Hend1 & _).
    destruct (IH nm1 Hend1 Hrest) as (Hd & Hlen & Hend').
    unfold log_of in *. cbn [flat_map length].
    split; [rewrite Hd, Hd1, <- app_assoc; reflexivity|].
    split; [|assumption].
    rewrite length_app, Hlen. unfold op_bytes.
    destruct (op_record op) as [[k o] z]. rewrite length_record_bytes. lia.
Qed.

Lemma run_appends_one_record_per_op_witness :
  f_data (indexFile scenario_index) = record_bytes 100 5 200 ++ record_bytes 100 0 0.
Proof.
  destruct (run_appends_one_record_per_op [OpPut 100 5 200; OpDelete 100]
              fresh_index scenario_index) as (Hd & _ & _).
  - reflexivity.
  - vm_compute. reflexivity.
  - rewrite Hd. vm_compute. reflexivity.
Defined.

(** X5.  No run of [Put], [Delete] and no call of [NextFileKey] moves the
    high-water mark of the index it is applied to: whatever the keys
    written and whatever the outcome of the writes, [MaxFileKey] reports
    the value it had before. *)
Theorem MaxFileKey_unchanged_by_run (ops : list index_op) (nm : NeedleMap) (count : Z) :
  MaxFileKey (fst (run_ops nm ops)) = MaxFileKey nm /\
  MaxFileKey (snd (NextFileKey (fst (run_ops nm ops)) count)) = MaxFileKey nm.
Proof.
  rewrite NextFileKey_keeps_receiver.
  assert (Hrun : MaxFileKey (fst (run_ops nm ops)) = MaxFileKey nm).
  { revert nm. induction ops as [|op ops IH]; intros nm; [reflexivity|].
    simpl. destruct (run_op nm op) as [nm1 e] eqn:Hop.
    specialize (IH nm1). destruct (run_ops nm1 ops) as [nm2 es]. simpl in *.
    rewrite IH. unfold MaxFileKey.
    destruct op as [key offset size | key]; simpl in Hop.
    - pose proof (Put_metric nm key offset size) as Hmt.
      destruct (Put nm key offset size) as [nmp [n ep]]. simpl in Hmt.
      inversion Hop; subst. rewrite Hmt. reflexivity.
    - pose proof (Delete_MaximumFileKey nm key) as Hmt.
      rewrite Hop in Hmt. exact Hmt. }
  split; exact Hrun.
Qed.

(* ===================================================================== *)
(** ** More on replay: where the file is left, what the log means *)
(* ===================================================================== *)

Lemma file_Read_pos (f f1 : File) (len : nat) (x : list byte * option error) :
  (f_pos f <= length (f_data f))%nat ->
  file_Read f len = (f1, x) ->
  (f_pos f1 <= length (f_data f1))%nat.
Proof.
  intros Hpos. unfold file_Read. destruct (next_outcome f) as [o sc].
  destruct o as [|k|n msg]; try case_decide; intros Heq; inversion Heq; subst;
    simpl; lia.
Qed.

Lemma unread_nil_at_end (f : File) :
  (f_pos f <= length (f_data f))%nat -> unread f = [] -> at_end f.
Proof.
  unfold unread, at_end. intros Hpos Hnil.
  apply (f_equal length) in Hnil. rewrite length_drop in Hnil. simpl in Hnil. lia.
Qed.

Section WalkEnd.
Context {St : Type} (fn : St -> Z -> Z -> Z -> St * option error).

(** A walk that returns without error has read the file to its end. *)
Lemma walk_loop_end (fuel : nat) :
  forall r bytes count e s r' s',
    no_read_error (f_script r) ->
    (16 <= length bytes)%nat -> (count <= length bytes)%nat ->
    loop_pre r count e ->
    (f_pos r <= length (f_data r))%nat ->
    walk_loop fn fuel r bytes count e s = Some (r', s', None) ->
    at_end r'.
Proof.
  induction fuel as [|fuel IH];
    intros r bytes count e s r' s' Hok Hbuf Hcount Hpre Hpos Hrun; [discriminate|].
  cbn [walk_loop] in Hrun.
  destruct Hpre as [[-> Hcpos] | (-> & Hrest & Hshort)].
  2:{ case_decide as Hgo; [destruct Hgo; discriminate|]. simpl in Hrun.
      inversion Hrun; subst. now apply unread_nil_at_end. }
  case_decide as Hgo; [|exfalso; apply Hgo; split; [lia | reflexivity]].
  set (k := (count / 16)%nat) in *.
  destruct (for_rows_spec fn k (S count) bytes count 0 s) as (i & Hrows & Hi);
    [lia | subst k; div_lia | subst k; div_lia |].
  rewrite Hrows in Hrun. clear Hrows.
  destruct (walk_records fn s (records_n k (slice bytes 0 count))) as [s1 [err|]];
    cbn [fst snd] in *; [discriminate|].
  specialize (Hi eq_refl). rewrite Nat.add_0_l in Hi. subst i.
  assert (Hnext : forall bytes1 i1,
    length bytes1 = length bytes -> i1 = (count - 16 * k)%nat ->
    (let '(r1, (chunk, e1)) := file_Read r (length bytes1 - i1) in
     walk_loop fn fuel r1
       (take i1 bytes1 ++ chunk ++ drop (i1 + length chunk) bytes1)
       (length chunk + i1) e1 s1) = Some (r', s', None) ->
    at_end r').
  { intros bytes1 i1 Hlen1 Hi1 Hloop.
    assert (Hi1' : (i1 < 16)%nat) by (subst i1 k; div_lia).
    destruct (file_Read_cases r (length bytes1 - i1) Hok) as
      (r1 & chunk & e1 & Hread & Hdata & Hok1 & Hcase); [lia|].
    rewrite Hread in Hloop.
    pose proof (file_Read_pos _ _ _ _ Hpos Hread) as Hpos1.
    destruct Hcase as [(Hr & Hr1 & -> & ->) | (-> & Hchunk & Hr)].
    - eapply (IH r1 _ _ (Some io_EOF)); [exact Hok1 | | | | exact Hpos1 | exact Hloop].
      + rewrite !length_app, length_take, length_drop. simpl. lia.
      + rewrite !length_app, length_take, length_drop. simpl. lia.
      + right. split; [reflexivity|]. split; [assumption | simpl; lia].
    - eapply (IH r1 _ _ None); [exact Hok1 | | | | exact Hpos1 | exact Hloop].
      + rewrite !length_app, length_take, length_drop. lia.
      + rewrite !length_app, length_take, length_drop. lia.
      + left. split; [reflexivity | lia]. }
  case_decide as Hmod.
  - assert (Hleft : length (slice bytes (16 * k) count) = (count - 16 * k)%nat)
      by (unfold slice; rewrite length_drop, length_take; lia).
    rewrite Hleft, Nat.min_id in Hrun.
    rewrite (take_ge (slice bytes (16 * k) count)) in Hrun by lia.
    apply (Hnext (slice bytes (16 * k) count ++ drop (count - 16 * k) bytes)
                 (count - 16 * k)%nat);
      [rewrite length_app, Hleft, length_drop; lia | reflexivity | exact Hrun].
  - assert (Hz : (count - 16 * k = 0)%nat) by (subst k; div_lia).
    apply (Hnext bytes 0%nat); [reflexivity | lia |].
    rewrite Nat.sub_0_r. simpl.
    destruct (file_Read r (length bytes)) as [r1 [chunk e1]].
    rewrite Nat.add_0_r. exact Hrun.
Qed.

Lemma walkIndexFile_end (r r' : File) (s s' : St) :
  no_read_error (f_script r) ->
  (f_pos r <= length (f_data r))%nat ->
  walkIndexFile fn r s = Some (r', s', None) ->
  at_end r'.
Proof.
  intros Hok Hpos. unfold walkIndexFile.
  set (buf := replicate (16 * RowsToRead) x00).
  assert (Hbuf : length buf = (16 * RowsToRead)%nat) by apply length_replicate.
  assert (Hrows : (16 <= 16 * RowsToRead)%nat) by (unfold RowsToRead; lia).
  destruct (file_Read_cases r (length buf) Hok) as
    (r1 & chunk & e1 & Hread & Hdata & Hok1 & Hcase); [lia|].
  rewrite Hread. pose proof (file_Read_pos _ _ _ _ Hpos Hread) as Hpos1.
  intros Hrun.
  destruct Hcase as [(Hr & Hr1 & -> & ->) | (-> & Hchunk & Hr)].
  - eapply (walk_loop_end _ r1 _ _ (Some io_EOF));
      [exact Hok1 | | | | exact Hpos1 | exact Hrun].
    + simpl. rewrite ?length_drop. simpl. lia.
    + simpl. lia.
    + right. split; [reflexivity|]. split; [assumption | simpl; lia].
  - eapply (walk_loop_end _ r1 _ _ None);
      [exact Hok1 | | | | exact Hpos1 | exact Hrun].
    + rewrite length_app, length_drop. lia.
    + rewrite length_app, length_drop. lia.
    + left. split; [reflexivity | lia].
Qed.
End WalkEnd.

Lemma LoadNeedleMap_whole_log (file : File) :
  no_read_error (f_script file) ->
  (f_pos file <= length (f_data file))%nat ->
  exists nm,
    LoadNeedleMap file = Some (nm, None) /\
    m nm = m (load_all (NewNeedleMap file) (complete_records (unread file))) /\
    metric nm = metric (load_all (NewNeedleMap file) (complete_records (unread file))) /\
    f_data (indexFile nm) = f_data file /\
    f_pos (indexFile nm) = length (f_data file).
Proof.
  intros Hok Hpos.
  destruct (LoadNeedleMap_spec file Hok) as (nm & Hload & Hm & Hmt & Hdata).
  exists nm. repeat (split; [assumption|]).
  unfold LoadNeedleMap in Hload.
  destruct (walkIndexFile load_record file (NewNeedleMap file))
    as [[[r' nm1] e]|] eqn:Hwalk; [|discriminate].
  inversion Hload; subst. simpl in *.
  rewrite <- Hdata. eapply walkIndexFile_end; eauto.
Qed.

(** X6.  [LoadNeedleMap] on a file whose reads meet no device error, read
    from its current position in chunks of any sizes: it returns success;
    the index is the callback run over the complete records of the unread
    bytes, in order; the bytes of the file are untouched and the file is
    left positioned at its end, where the next [Put] or [Delete] appends. *)
Theorem LoadNeedleMap_reads_whole_log (file : File) :
  no_read_error (f_script file) ->
  (f_pos file <= length (f_data file))%nat ->
  exists nm,
    LoadNeedleMap file = Some (nm, None) /\
    m nm = m (load_all (NewNeedleMap file) (complete_records (unread file))) /\
    metric nm = metric (load_all (NewNeedleMap file) (complete_records (unread file))) /\
    f_data (indexFile nm) = f_data file /\
    f_pos (indexFile nm) = length (f_data file).
Proof.
  exact (LoadNeedleMap_whole_log file).
Qed.

Lemma LoadNeedleMap_reads_whole_log_witness :
  exists nm,
    LoadNeedleMap torn_log = Some (nm, None) /\
    f_pos (indexFile nm) = 20%nat.
Proof.
  destruct (LoadNeedleMap_reads_whole_log torn_log) as (nm & Hload & _ & _ & _ & Hp).
  - repeat constructor.
  - simpl. lia.
  - exists nm. split; [exact Hload | exact Hp].
Defined.

(** X7.  A device error at the first read is not taken for the end of the
    file: [walkIndexFile] returns that error without calling the callback,
    and [LoadNeedleMap] returns it together with an index that is still
    empty. *)
Theorem first_read_error_is_returned {St}
    (fn : St -> Z -> Z -> Z -> St * option error) (r : File) (s : St)
    (n : nat) (msg : string) (sc : list io_outcome) :
  f_script r = IoErr n msg :: sc ->
  walkIndexFile fn r s =
    Some (mkFile (f_name r) (f_data r) (f_pos r) sc, s, Some (PathError msg)) /\
  LoadNeedleMap r =
    Some (mkNeedleMap (mkFile (f_name r) (f_data r) (f_pos r) sc)
                      NewCompactMap (replicate 16 x00) (mkMetric 0 0 0 0 0),
          Some (PathError msg)).
Proof.
  intros Hs.
  assert (Hwalk : forall T (g : T -> Z -> Z -> Z -> T * option error) (t : T),
    walkIndexFile g r t =
      Some (mkFile (f_name r) (f_data r) (f_pos r) sc, t, Some (PathError msg))).
  { intros T g t. unfold walkIndexFile, file_Read, next_outcome. rewrite Hs.
    cbv beta iota zeta. rewrite Nat.add_comm. cbn [Nat.add walk_loop length].
    case_decide as Hgo; [destruct Hgo; discriminate | reflexivity]. }
  split; [apply Hwalk|].
  unfold LoadNeedleMap. rewrite Hwalk. reflexivity.
Qed.

Lemma first_read_error_is_returned_witness :
  LoadNeedleMap (reopen (indexFile scenario_index) [IoErr 0 "input/output error"]) =
    Some (mkNeedleMap (mkFile "1.idx" (f_data (indexFile scenario_index)) 0 [])
                      NewCompactMap (replicate 16 x00) (mkMetric 0 0 0 0 0),
          Some (PathError "input/output error")).
Proof.
  apply (proj2 (first_read_error_is_returned load_record
                  (reopen (indexFile scenario_index) [IoErr 0 "input/output error"])
                  (NewNeedleMap (reopen (indexFile scenario_index)
                                        [IoErr 0 "input/output error"]))
                  0 "input/output error" [] eq_refl)).
Defined.

Lemma load_record_lookup (nm : NeedleMap) (key offset size k : Z) :
  m (fst (load_record nm key offset size)) !! k =
    if decide (key = k)
    then (if decide (offset > 0) then Some (mkNeedleValue key offset size) else None)
    else m nm !! k.
Proof.
  unfold load_record, cm_Set, cm_Delete.
  destruct (decide (offset > 0));
    [destruct (decide (oldSize_of (m nm !! key) > 0))|]; simpl;
    destruct (decide (key = k)) as [->|Hne];
    rewrite ?lookup_insert_eq, ?lookup_delete_eq,
            ?lookup_insert_ne, ?lookup_delete_ne by assumption; reflexivity.
Qed.

Lemma load_all_lookup (rs : list (Z * Z * Z)) :
  forall nm k, m (load_all nm rs) !! k = replay_value rs k (m nm !! k).
Proof.
  induction rs as [|[[key offset] size] rs IH]; intros nm k; [reflexivity|].
  rewrite load_all_cons, IH, load_record_lookup. reflexivity.
Qed.

(** X8.  In an index loaded from a log, a key is found exactly when the
    last record of the log for that key has a non-zero offset, and then
    with the offset and size of that record; a key whose last record is a
    tombstone, or that has no record, is not found. *)
Theorem loaded_index_last_record_wins (file : File) :
  no_read_error (f_script file) ->
  exists nm,
    LoadNeedleMap file = Some (nm, None) /\
    forall k, Get nm k = replay_value (complete_records (unread file)) k None.
Proof.
  intros Hok.
  destruct (LoadNeedleMap_spec file Hok) as (nm & Hload & Hm & _).
  exists nm. split; [exact Hload|]. intros k.
  unfold Get, cm_Get. rewrite Hm, load_all_lookup. reflexivity.
Qed.

Lemma loaded_index_last_record_wins_witness :
  exists nm,
    LoadNeedleMap (reopen (indexFile scenario_index) [IoShort 9]) = Some (nm, None) /\
    Get nm 100 = None.
Proof.
  destruct (loaded_index_last_record_wins
              (reopen (indexFile scenario_index) [IoShort 9]))
    as (nm & Hload & Hget).
  - repeat constructor.
  - exists nm. split; [exact Hload|]. rewrite Hget. vm_compute. reflexivity.
Defined.

Lemma u64_idemp_l (a b : Z) : u64 (u64 a + b) = u64 (a + b).
Proof. unfold u64. apply Zplus_mod_idemp_l. Qed.

Lemma load_all_totals (rs : list (Z * Z * Z)) :
  forall nm cf cb,
    FileCounter (metric nm) = int_wrap cf ->
    FileByteCounter (metric nm) = u64 cb ->
    FileCounter (metric (load_all nm rs)) = int_wrap (cf + Z.of_nat (length rs)) /\
    FileByteCounter (metric (load_all nm rs)) =
      u64 (fold_left (fun acc r => acc + snd r) rs cb) /\
    MaximumFileKey (metric (load_all nm rs)) =
      max_record_key rs (MaximumFileKey (metric nm)).
Proof.
  induction rs as [|[[key offset] size] rs IH]; intros nm cf cb Hf Hb.
  - unfold load_all. simpl. rewrite Z.add_0_r. auto.
  - rewrite load_all_cons.
    destruct (IH (fst (load_record nm key offset size)) (cf + 1) (cb + size))
      as (Hf' & Hb' & Hk').
    + unfold load_record, cm_Set, cm_Delete.
      destruct (decide (offset > 0));
        [destruct (decide (oldSize_of (m nm !! key) > 0))|]; simpl;
        rewrite Hf; apply int_wrap_idemp_l.
    + unfold load_record, cm_Set, cm_Delete.
      destruct (decide (offset > 0));
        [destruct (decide (oldSize_of (m nm !! key) > 0))|]; simpl;
        rewrite Hb; apply u64_idemp_l.
    + rewrite Hf', Hb', Hk'. cbn [length fold_left snd].
      split; [f_equal; lia|]. split; [reflexivity|].
      unfold max_record_key. cbn [fold_left fst]. f_equal.
      unfold load_record, cm_Set, cm_Delete.
      destruct (decide (offset > 0));
        [destruct (decide (oldSize_of (m nm !! key) > 0))|]; simpl;
        destruct (decide (key > MaximumFileKey (metric nm))); lia.
Qed.

(** X9.  The totals of a loaded index: [FileCount()] is the number of
    complete records in the log, tombstones included; [ContentSize()] is
    the sum of their size fields (modulo 2^64); [MaxFileKey()] is the
    largest key among them, 0 for an empty log. *)
Theorem loaded_index_totals (file : File) :
  no_read_error (f_script file) ->
  exists nm,
    LoadNeedleMap file = Some (nm, None) /\
    FileCount nm = int_wrap (Z.of_nat (length (unread file) / 16)) /\
    ContentSize nm = u64 (sum_record_sizes (complete_records (unread file))) /\
    MaxFileKey nm = max_record_key (complete_records (unread file)) 0.
Proof.
  intros Hok.
  destruct (LoadNeedleMap_spec file Hok) as (nm & Hload & _ & Hmt & _).
  exists nm. split; [exact Hload|].
  unfold FileCount, ContentSize, MaxFileKey. rewrite Hmt.
  destruct (load_all_totals (complete_records (unread file)) (NewNeedleMap file) 0 0)
    as (Hf & Hb & Hk); [reflexivity | reflexivity |].
  rewrite Hf, Hb, Hk. unfold complete_records at 1. rewrite length_records_n.
  auto.
Qed.

Lemma loaded_index_totals_witness :
  exists nm,
    LoadNeedleMap (reopen (indexFile scenario_index) []) = Some (nm, None) /\
    FileCount nm = 2 /\ ContentSize nm = 200 /\ MaxFileKey nm = 100.
Proof.
  destruct (loaded_index_totals (reopen (indexFile scenario_index) []))
    as (nm & Hload & Hf & Hb & Hk).
  - constructor.
  - exists nm. split; [exact Hload|].
    rewrite Hf, Hb, Hk. vm_compute. auto.
Defined.

Lemma load_record_ext (nm1 nm2 : NeedleMap) (key offset size : Z) :
  m nm1 = m nm2 -> metric nm1 = metric nm2 ->
  m (fst (load_record nm1 key offset size)) = m (fst (load_record nm2 key offset size)) /\
  metric (fst (load_record nm1 key offset size))
    = metric (fst (load_record nm2 key offset size)).
Proof.
  intros Hm Hmt. unfold load_record, cm_Set, cm_Delete. rewrite Hm, Hmt.
  destruct (decide (offset > 0));
    [destruct (decide (oldSize_of (m nm2 !! key) > 0))|]; simpl; auto.
Qed.

Lemma load_all_ext (rs : list (Z * Z * Z)) :
  forall nm1 nm2,
    m nm1 = m nm2 -> metric nm1 = metric nm2 ->
    m (load_all nm1 rs) = m (load_all nm2 rs) /\
    metric (load_all nm1 rs) = metric (load_all nm2 rs).
Proof.
  induction rs as [|[[key offset] size] rs IH]; intros nm1 nm2 Hm Hmt.
  - unfold load_all. simpl. auto.
  - rewrite !load_all_cons.
    destruct (load_record_ext nm1 nm2 key offset size Hm Hmt) as [Hm' Hmt'].
    now apply IH.
Qed.

Lemma load_all_app (rs1 rs2 : list (Z * Z * Z)) (nm : NeedleMap) :
  load_all nm (rs1 ++ rs2) = load_all (load_all nm rs1) rs2.
Proof.
  unfold load_all. rewrite walk_records_app.
  pose proof (walk_load_no_error rs1 nm) as Hn.
  destruct (walk_records load_record nm rs1) as [nm1 e]. simpl in *. now subst e.
Qed.

Lemma complete_records_aligned_app (a b : list byte) :
  (length a mod 16 = 0)%nat ->
  complete_records (a ++ b) = complete_records a ++ complete_records b.
Proof.
  intros Hal.
  rewrite (complete_records_app (length a / 16)) by div_lia. reflexivity.
Qed.

(** X10.  A [Put] whose append fails after fewer than 16 bytes leaves a
    torn record at the end of an otherwise whole log.  The live index holds
    the new record, but a replay of the log does not see it: reloading
    gives the same map and counters as reloading the log before that
    [Put]. *)
Theorem torn_put_is_lost_on_reload (nm : NeedleMap) (key offset size : Z)
    (n : nat) (err : error) (script' : list io_outcome) :
  at_end (indexFile nm) ->
  (length (f_data (indexFile nm)) mod 16 = 0)%nat ->
  snd (Put nm key offset size) = (n, Some err) ->
  (n < 16)%nat ->
  no_read_error script' ->
  Get (fst (Put nm key offset size)) key = Some (mkNeedleValue key offset size) /\
  exists before after,
    LoadNeedleMap (reopen (indexFile nm) script') = Some (before, None) /\
    LoadNeedleMap (reopen (indexFile (fst (Put nm key offset size))) script')
      = Some (after, None) /\
    m after = m before /\ metric after = metric before.
Proof.
  intros Hend Hal Hput Hn Hok.
  split. { unfold Get, cm_Get. rewrite Put_map. apply lookup_insert_eq. }
  pose proof (Put_file nm key offset size) as Hf. rewrite Hput in Hf. symmetry in Hf.
  destruct (Write_data _ _ _ _ _ Hf) as [Hd Hle].
  unfold at_end in Hend. rewrite Hend, write_at_end in Hd.
  destruct (LoadNeedleMap_spec (reopen (indexFile nm) script') Hok)
    as (before & Hl1 & Hm1 & Hmt1 & _).
  destruct (LoadNeedleMap_spec (reopen (indexFile (fst (Put nm key offset size))) script') Hok)
    as (after & Hl2 & Hm2 & Hmt2 & _).
  exists before, after. split; [exact Hl1|]. split; [exact Hl2|].
  assert (Hrecs :
    complete_records (unread (reopen (indexFile (fst (Put nm key offset size))) script'))
    = complete_records (unread (reopen (indexFile nm) script'))).
  { unfold unread, reopen. cbn [f_data f_pos]. rewrite !drop_0, Hd.
    rewrite complete_records_aligned_app by assumption.
    rewrite (complete_records_short (take n _)) by (rewrite length_take; lia).
    apply app_nil_r. }
  rewrite Hm1, Hm2, Hmt1, Hmt2, Hrecs.
  apply load_all_ext; reflexivity.
Qed.

Lemma torn_put_is_lost_on_reload_witness :
  Get (fst (Put nm_short_write 7 9 30)) 7 = Some (mkNeedleValue 7 9 30) /\
  exists before after,
    LoadNeedleMap (reopen (indexFile nm_short_write) []) = Some (before, None) /\
    LoadNeedleMap (reopen (indexFile (fst (Put nm_short_write 7 9 30))) [])
      = Some (after, None) /\
    m after = m before /\ metric after = metric before.
Proof.
  apply (torn_put_is_lost_on_reload nm_short_write 7 9 30 3 io_ErrShortWrite []).
  - reflexivity.
  - vm_compute. reflexivity.
  - vm_compute. reflexivity.
  - lia.
  - constructor.
Defined.

(** X11.  The round trip over the life of an index: load an index from a
    log of whole records, apply [Put]s (offset above 0) and [Delete]s that
    all succeed, and load again from the log as it then is.  The second
    load gives the map of the live index and its [fileByteCounter],
    [deletionCounter] and [deletionByteCounter]; its [fileCounter] is the
    live one plus the number of [Delete]s applied in between. *)
Theorem reload_after_load_and_run (file : File) (ops : list index_op)
    (nm0 nm : NeedleMap) (script' : list io_outcome) :
  no_read_error (f_script file) ->
  f_pos file = 0%nat ->
  (length (f_data file) mod 16 = 0)%nat ->
  LoadNeedleMap file = Some (nm0, None) ->
  Forall valid_op ops ->
  run_ops nm0 ops = (nm, []) ->
  no_read_error script' ->
  exists nm',
    LoadNeedleMap (reopen (indexFile nm) script') = Some (nm', None) /\
    m nm' = m nm /\
    ContentSize nm' = ContentSize nm /\
    DeletedCount nm' = DeletedCount nm /\
    DeletedSize nm' = DeletedSize nm /\
    FileCount nm' = int_wrap (FileCount nm + count_deletes ops).
Proof.
  intros Hok Hpos Hal Hload Hvalid Hrun Hok'.
  destruct (LoadNeedleMap_whole_log file Hok) as (nm0' & Hload' & Hm0 & Hmt0 & Hd0 & Hp0);
    [lia|].
  rewrite Hload in Hload'. inversion Hload'; subst nm0'. clear Hload'.
  assert (Hun : unread file = f_data file) by (unfold unread; now rewrite Hpos).
  rewrite Hun in Hm0, Hmt0.
  set (recs0 := complete_records (f_data file)) in *.
  set (new' := NewNeedleMap (reopen (indexFile nm) script')).
  destruct (load_all_ext recs0 new' (NewNeedleMap file) eq_refl eq_refl) as [Hme Hmte].
  destruct (load_all_totals recs0 (NewNeedleMap file) 0 0 eq_refl eq_refl)
    as (Hfc & Hfb & _).
  destruct (run_ops_replays ops 0 nm0 nm (load_all new' recs0))
    as [(Hm & Hfb' & _ & Hdc & Hdb & Hfc') Hdata]; try assumption.
  { unfold at_end. congruence. }
  { unfold replays. rewrite Hme, Hmte, Hm0, Hmt0.
    repeat split; try reflexivity.
    - rewrite Hfb. apply u64_range.
    - rewrite Hfb. apply u64_range.
    - rewrite Hfc, int_wrap_idemp_l. f_equal. lia. }
  destruct (LoadNeedleMap_spec (reopen (indexFile nm) script') Hok')
    as (nm' & Hl & Hm' & Hmt' & _).
  assert (Hrecs : complete_records (unread (reopen (indexFile nm) script'))
                  = recs0 ++ map op_record ops).
  { unfold unread, reopen. cbn [f_data f_pos]. rewrite drop_0, Hdata, Hd0.
    rewrite complete_records_aligned_app by assumption.
    now rewrite complete_records_log_of. }
  rewrite Hrecs, load_all_app in Hm', Hmt'. fold new' in Hm', Hmt'.
  exists nm'. unfold ContentSize, DeletedCount, DeletedSize, FileCount.
  rewrite Hm', Hmt'. simpl in Hfc'. repeat split; assumption.
Qed.

Lemma reload_after_load_and_run_witness :
  exists nm nm',
    run_ops loaded_scenario [OpPut 7 9 30] = (nm, []) /\
    LoadNeedleMap (reopen (indexFile nm) [IoShort 5]) = Some (nm', None) /\
    m nm' = m nm.
Proof.
  destruct (reload_after_load_and_run (reopen (indexFile scenario_index) [])
              [OpPut 7 9 30] loaded_scenario
              (fst (run_ops loaded_scenario [OpPut 7 9 30])) [IoShort 5])
    as (nm' & Hload & Hm & _).
  - constructor.
  - reflexivity.
  - vm_compute. reflexivity.
  - vm_compute. reflexivity.
  - unfold valid_op, is_u64, is_u32. repeat constructor; lia.
  - vm_compute. reflexivity.
  - repeat constructor.
  - exists (fst (run_ops loaded_scenario [OpPut 7 9 30])), nm'.
    split; [vm_compute; reflexivity|]. split; [exact Hload | exact Hm].
Defined.

(** X12.  A log shorter than one record, the empty log of a new index file
    included, loads without error into an empty index: no key is found and
    every counter is zero. *)
Theorem short_log_loads_empty (file : File) :
  no_read_error (f_script file) ->
  (length (unread file) < 16)%nat ->
  exists nm,
    LoadNeedleMap file = Some (nm, None) /\
    (forall k, Get nm k = None) /\
    metric nm = mkMetric 0 0 0 0 0.
Proof.
  intros Hok Hshort.
  destruct (LoadNeedleMap_spec file Hok) as (nm & Hload & Hm & Hmt & _).
  rewrite (complete_records_short _ Hshort) in Hm, Hmt.
  exists nm. split; [exact Hload|]. split; [|exact Hmt].
  intros k. unfold Get, cm_Get. rewrite Hm. apply lookup_empty.
Qed.

Lemma short_log_loads_empty_witness :
  exists nm,
    LoadNeedleMap (empty_file "1.idx" [IoShort 4]) = Some (nm, None) /\
    (forall k, Get nm k = None) /\
    metric nm = mkMetric 0 0 0 0 0.
Proof.
  apply (short_log_loads_empty (empty_file "1.idx" [IoShort 4])).
  - repeat constructor.
  - simpl. lia.
Defined.

(* ===================================================================== *)
(** ** More on the volume layout *)
(* ===================================================================== *)

Lemma remove_first_other {A} `{EqDecision A} (x y : A) (l : list A) :
  y <> x -> y ∈ l -> y ∈ remove_first x l.
Proof.
  intros Hne. induction l as [|z l IH]; simpl; [easy|].
  intros Hin. destruct (decide (z = x)) as [->|Hzx].
  - apply elem_of_cons in Hin as [->|Hin]; [contradiction | assumption].
  - apply elem_of_cons in Hin as [->|Hin]; [apply list_elem_of_here|].
    apply list_elem_of_further. auto.
Qed.

Lemma remove_first_length_in {A} `{EqDecision A} (x : A) (l : list A) :
  x ∈ l -> S (length (remove_first x l)) = length l.
Proof.
  induction l as [|z l IH]; simpl; intros Hin; [inversion Hin|].
  destruct (decide (z = x)) as [->|Hzx]; [reflexivity|].
  apply elem_of_cons in Hin as [->|Hin]; [contradiction|].
  simpl. now rewrite IH.
Qed.

Section LayoutMore.
Context `{StoragePkg}.

Lemma layout_eta (vl : VolumeLayout) :
  mkLayout (repType vl) (vid2location vl) (writables vl) (pulse vl) (volumeSizeLimit vl)
  = vl.
Proof. now destruct vl. Qed.

(** X13.  [RegisterVolume] for a node that the volume's location list
    already holds changes nothing: neither the location lists nor the
    writable set, whatever size, version or read-only flag the volume is
    now reported with. *)
Theorem RegisterVolume_known_node (vl : VolumeLayout) (v : VolumeInfo) (dn : DataNode) :
  dn ∈ nodes_of vl (Id v) -> RegisterVolume vl v dn = vl.
Proof.
  intros Hin. unfold RegisterVolume, vll_Add.
  destruct (decide (dn ∈ vll_list (location_or_new vl (Id v)))) as [_|Hout];
    [|contradiction].
  unfold nodes_of, location_or_new in *.
  destruct (vid2location vl !! Id v) as [l|] eqn:Hl.
  - rewrite insert_id by assumption. apply layout_eta.
  - simpl in Hin. inversion Hin.
Qed.

(** X14.  [Lookup] after [RegisterVolume]: the volume is known, its list
    holds the registered node and every node it held before, in their
    order; the lists of all other volumes are as they were. *)
Theorem Lookup_after_RegisterVolume (vl : VolumeLayout) (v : VolumeInfo) (dn : DataNode) :
  (exists l, Lookup (RegisterVolume vl v dn) (Id v) = Some l /\ dn ∈ l /\
             (l = nodes_of vl (Id v) \/ l = nodes_of vl (Id v) ++ [dn])) /\
  (forall vid, vid <> Id v -> Lookup (RegisterVolume vl v dn) vid = Lookup vl vid).
Proof.
  split.
  - unfold Lookup. rewrite RegisterVolume_location, lookup_insert_eq.
    eexists. split; [reflexivity|]. unfold vll_Add, nodes_of.
    destruct (decide (dn ∈ vll_list (location_or_new vl (Id v)))) as [Hin|Hout]; simpl.
    + split; [assumption | now left].
    + split; [apply elem_of_app; right; apply list_elem_of_here | now right].
  - intros vid Hne. unfold Lookup.
    rewrite RegisterVolume_location, lookup_insert_ne by congruence. reflexivity.
Qed.

(** X15.  What [SetVolumeAvailable] returns and does to the writable set:
    the set is left as it was or gets the id appended; the result is true
    exactly when the id was not writable before and is writable after; and
    when the node is new to the list and the list thereby reaches the copy
    count of the layout's replication type, the id is writable after. *)
Theorem SetVolumeAvailable_result (vl vl' : VolumeLayout) (dn : DataNode) (vid : Z)
    (b : bool) :
  SetVolumeAvailable vl dn vid = Some (vl', b) ->
  (writables vl' = writables vl \/ writables vl' = writables vl ++ [vid]) /\
  (b = true <-> (vid ∉ writables vl) /\ vid ∈ writables vl') /\
  (dn ∉ nodes_of vl vid ->
   Z.of_nat (length (nodes_of vl vid)) + 1 >= GetCopyCount (repType vl) ->
   vid ∈ writables vl') /\
  repType vl' = repType vl.
Proof.
  unfold SetVolumeAvailable, nodes_of, location_or_new. intros Hrun.
  destruct (vid2location vl !! vid) as [locs|] eqn:Hl; [|discriminate].
  unfold vll_Add in Hrun.
  destruct (decide (dn ∈ vll_list locs)) as [Hin|Hout].
  { inversion Hrun; subst. simpl. split; [now left|].
    split; [split; [discriminate | intros [? ?]; contradiction]|].
    split; [intros ?; contradiction | reflexivity]. }
  unfold vll_Length in Hrun. simpl in Hrun. rewrite length_app in Hrun. simpl in Hrun.
  match type of Hrun with
  | context [decide ?P] => destruct (decide P) as [Hge|Hlt]
  end.
  - unfold setVolumeWritable in Hrun. simpl in Hrun.
    destruct (decide (vid ∈ writables vl)) as [Hw|Hnw]; inversion Hrun; subst; simpl.
    + split; [now left|].
      split; [split; [discriminate | intros [? ?]; contradiction]|]. auto.
    + assert (Hnew : vid ∈ writables vl ++ [vid])
        by (apply elem_of_app; right; apply list_elem_of_here).
      split; [now right|]. split; [split; auto|]. auto.
  - inversion Hrun; subst. simpl. split; [now left|].
    split; [split; [discriminate | intros [? ?]; contradiction]|].
    split; [|reflexivity]. intros _ Hreach. lia.
Qed.

Lemma reachable_inv (rt : ReplicationType) (limit pulse0 : Z)
    (ops : list layout_op) (vl : VolumeLayout) :
  same_class rt ops ->
  layout_run (NewVolumeLayout rt limit pulse0) ops = Some vl ->
  layout_inv vl /\ repType vl = rt.
Proof.
  intros Hclass Hrun.
  apply (layout_run_inv rt ops (NewVolumeLayout rt limit pulse0) vl
           Hclass eq_refl Hrun (layout_inv_new _ _ _)).
Qed.

(** X16.  In every state reached from a fresh layout the writable set
    holds no volume id twice. *)
Theorem writable_set_has_no_duplicates (rt : ReplicationType) (limit pulse0 : Z)
    (ops : list layout_op) (vl : VolumeLayout) :
  same_class rt ops ->
  layout_run (NewVolumeLayout rt limit pulse0) ops = Some vl ->
  NoDup (writables vl).
Proof.
  intros Hclass Hrun.
  destruct (reachable_inv rt limit pulse0 ops vl Hclass Hrun) as [[Hnd _] _].
  exact Hnd.
Qed.

(** X17.  In every state reached from a fresh layout by [RegisterVolume]
    (of volumes of the layout's replication class), [SetVolumeAvailable],
    [SetVolumeUnavailable] and [SetVolumeCapacityFull], [PickForWrite] either
    finds the writable set empty and reports exhaustion, or returns an id
    of the writable set with the count as given and a location list of at
    least the required copy count; the "is on no machine" error does not
    occur. *)
Theorem PickForWrite_in_reachable_state (rt : ReplicationType) (limit pulse0 : Z)
    (ops : list layout_op) (vl : VolumeLayout) (count : Z) (seed : nat) :
  same_class rt ops ->
  layout_run (NewVolumeLayout rt limit pulse0) ops = Some vl ->
  (writables vl = [] /\
   PickForWrite vl count seed = (None, 0, None, Some err_no_writable)) \/
  (exists vid locs,
     PickForWrite vl count seed = (Some vid, count, Some locs, None) /\
     vid ∈ writables vl /\
     vid2location vl !! vid = Some locs /\
     vll_Length locs >= GetCopyCount rt).
Proof.
  intros Hclass Hrun.
  destruct (reachable_inv rt limit pulse0 ops vl Hclass Hrun) as [[_ Hin] Hrt].
  destruct (decide (writables vl = [])) as [Hw|Hw].
  - left. split; [assumption|]. unfold PickForWrite. rewrite Hw. reflexivity.
  - right.
    destruct (rand_index_in_range vl seed Hw) as [vid Hvid].
    assert (Hmem : vid ∈ writables vl) by (eapply list_elem_of_lookup_2; eauto).
    destruct (Hin vid Hmem) as (locs & Hl & Hge).
    exists vid, locs. rewrite <- Hrt.
    split; [|auto].
    unfold PickForWrite.
    destruct (decide (Z.of_nat (length (writables vl)) <= 0)) as [Hle|_].
    { destruct (writables vl); [contradiction | simpl in Hle; lia]. }
    rewrite Hvid, Hl. reflexivity.
Qed.

(** X18.  In every state reached from a fresh layout by [RegisterVolume]
    (of volumes of the layout's replication class), [SetVolumeAvailable],
    [SetVolumeUnavailable] and [SetVolumeCapacityFull],
    [SetVolumeCapacityFull] leaves the id out of the writable set, keeps
    every other id in or out as it was, does not touch the location lists,
    and returns true exactly when the id was writable. *)
Theorem SetVolumeCapacityFull_removes (rt : ReplicationType) (limit pulse0 : Z)
    (ops : list layout_op) (vl : VolumeLayout) (vid : Z) :
  same_class rt ops ->
  layout_run (NewVolumeLayout rt limit pulse0) ops = Some vl ->
  let vl' := fst (SetVolumeCapacityFull vl vid) in
  (vid ∉ writables vl') /\
  (forall x, x <> vid -> (x ∈ writables vl' <-> x ∈ writables vl)) /\
  vid2location vl' = vid2location vl /\
  (snd (SetVolumeCapacityFull vl vid) = true <-> vid ∈ writables vl).
Proof.
  intros Hclass Hrun. cbv zeta.
  destruct (reachable_inv rt limit pulse0 ops vl Hclass Hrun) as [[Hnd _] _].
  unfold SetVolumeCapacityFull, removeFromWritable.
  destruct (decide (vid ∈ writables vl)) as [Hw|Hnw]; simpl.
  - split; [now apply remove_first_gone|].
    split; [|split; [reflexivity | tauto]].
    intros x Hne. split; [apply remove_first_elem_of | now apply remove_first_other].
  - split; [assumption|]. split; [tauto|]. split; [reflexivity|].
    split; [discriminate | contradiction].
Qed.

(** X19.  In every state reached from a fresh layout by [RegisterVolume]
    (of volumes of the layout's replication class), [SetVolumeAvailable],
    [SetVolumeUnavailable] and [SetVolumeCapacityFull],
    [SetVolumeUnavailable] for a node of the volume's list takes the node
    out of the list (one node less); if fewer nodes than the required copy
    count remain, the id is not writable afterwards, otherwise the writable
    set is as before; every other id stays in or out as it was; the result
    is true exactly when the id was writable before and is not after. *)
Theorem SetVolumeUnavailable_result (rt : ReplicationType) (limit pulse0 : Z)
    (ops : list layout_op) (vl vl' : VolumeLayout) (dn : DataNode) (vid : Z) (b : bool) :
  same_class rt ops ->
  layout_run (NewVolumeLayout rt limit pulse0) ops = Some vl ->
  SetVolumeUnavailable vl dn vid = Some (vl', b) ->
  dn ∈ nodes_of vl vid ->
  S (length (nodes_of vl' vid)) = length (nodes_of vl vid) /\
  (Z.of_nat (length (nodes_of vl' vid)) < GetCopyCount rt -> vid ∉ writables vl') /\
  (Z.of_nat (length (nodes_of vl' vid)) >= GetCopyCount rt ->
   writables vl' = writables vl) /\
  (forall x, x <> vid -> (x ∈ writables vl' <-> x ∈ writables vl)) /\
  (b = true <-> vid ∈ writables vl /\ vid ∉ writables vl').
Proof.
  intros Hclass Hrun Hstep Hdn.
  destruct (reachable_inv rt limit pulse0 ops vl Hclass Hrun) as [[Hnd _] Hrt].
  unfold SetVolumeUnavailable in Hstep. unfold nodes_of, location_or_new in *.
  destruct (vid2location vl !! vid) as [locs|] eqn:Hl; [|discriminate].
  unfold vll_Remove in Hstep.
  destruct (decide (dn ∈ vll_list locs)) as [_|Hout]; [|contradiction].
  unfold vll_Length in Hstep. simpl in Hstep. rewrite Hrt in Hstep.
  match type of Hstep with
  | context [decide ?P] => destruct (decide P) as [Hlt|Hge]
  end.
  - unfold removeFromWritable in Hstep. simpl in Hstep.
    destruct (decide (vid ∈ writables vl)) as [Hw|Hnw]; inversion Hstep; subst; simpl;
      rewrite lookup_insert_eq; simpl.
    + split; [now apply remove_first_length_in|].
      split; [intros _; now apply remove_first_gone|].
      split; [intros Hge; lia|].
      split.
      * intros x Hne. split; [apply remove_first_elem_of | now apply remove_first_other].
      * split; [intros _; split; [assumption | now apply remove_first_gone] | reflexivity].
    + split; [now apply remove_first_length_in|].
      split; [intros _; assumption|]. split; [reflexivity|].
      split; [tauto|]. split; [discriminate | intros [? ?]; contradiction].
  - inversion Hstep; subst; simpl. rewrite lookup_insert_eq; simpl.
    split; [now apply remove_first_length_in|].
    split; [intros Hlt; lia|]. split; [reflexivity|]. split; [tauto|].
    split; [discriminate | intros [? Hn]; contradiction].
Qed.
End LayoutMore.

Section RegisterAll.
Context `{StoragePkg}.

Lemma isWritable_limit (vl vl' : VolumeLayout) (v : VolumeInfo) :
  volumeSizeLimit vl' = volumeSizeLimit vl -> isWritable vl' v = isWritable vl v.
Proof. intros Hl. unfold isWritable. now rewrite Hl. Qed.

Lemma register_all_state (rt : ReplicationType) (limit pulse0 : Z) (v : VolumeInfo)
    (dns : list DataNode) :
  NoDup dns ->
  register_all (NewVolumeLayout rt limit pulse0) v dns =
    mkLayout rt
      (if decide (dns = []) then ∅ else {[ Id v := mkLocations dns ]})
      (if isWritable (NewVolumeLayout rt limit pulse0) v
          && bool_decide (1 <= GetCopyCount (RepType v) <= Z.of_nat (length dns))
       then [Id v] else [])
      pulse0 limit.
Proof.
  induction dns as [|dn dns IH] using rev_ind; intros Hnd.
  - unfold register_all, NewVolumeLayout. simpl.
    rewrite bool_decide_eq_false_2 by lia. now rewrite andb_false_r.
  - apply NoDup_app in Hnd as (Hnd & Hdn & _).
    assert (Hout : dn ∉ dns) by (intros Hin; apply (Hdn dn Hin), list_elem_of_here).
    unfold register_all in *. rewrite fold_left_app. cbn [fold_left].
    rewrite (IH Hnd). clear IH.
    set (w := isWritable (NewVolumeLayout rt limit pulse0) v).
    unfold RegisterVolume.
    assert (Hloc : forall W,
      location_or_new
        (mkLayout rt (if decide (dns = []) then ∅ else {[ Id v := mkLocations dns ]})
                  W pulse0 limit) (Id v) = mkLocations dns).
    { intros W. unfold location_or_new. simpl.
      destruct (decide (dns = [])) as [->|Hne].
      - rewrite lookup_empty. reflexivity.
      - rewrite lookup_singleton_eq. reflexivity. }
    rewrite Hloc. unfold vll_Add. simpl.
    destruct (decide (dn ∈ dns)) as [Hin|_]; [contradiction|]. simpl.
    rewrite (isWritable_limit (NewVolumeLayout rt limit pulse0)) by reflexivity.
    fold w. unfold vll_Length. simpl. rewrite length_app. simpl.
    f_equal.
    + destruct (decide (dns ++ [dn] = [])) as [Heq|_];
        [destruct dns; discriminate|].
      destruct (decide (dns = [])) as [->|Hne].
      * apply insert_empty.
      * apply insert_singleton_eq.
    + destruct w; simpl;
        repeat case_decide; repeat case_bool_decide; try lia; reflexivity.
Qed.

(** X20.  The writability threshold.  When distinct nodes register one and
    the same volume on a fresh layout, the volume is known with exactly
    those nodes, in the order of registration, and it is writable exactly
    when its report satisfies the writability predicate and the copy count
    of its replication type is at least 1 and at most the number of nodes:
    it enters the writable set at the registration that reaches the copy
    count and is listed once however many nodes follow. *)
Theorem registration_threshold (rt : ReplicationType) (limit pulse0 : Z)
    (v : VolumeInfo) (dns : list DataNode) :
  NoDup dns ->
  let vl := register_all (NewVolumeLayout rt limit pulse0) v dns in
  Lookup vl (Id v) = (if decide (dns = []) then None else Some dns) /\
  writables vl =
    (if isWritable (NewVolumeLayout rt limit pulse0) v
        && bool_decide (1 <= GetCopyCount (RepType v) <= Z.of_nat (length dns))
     then [Id v] else []).
Proof.
  intros Hnd. cbv zeta. rewrite (register_all_state rt limit pulse0 v dns Hnd).
  split; [|reflexivity]. unfold Lookup. simpl.
  destruct (decide (dns = [])).
  - now rewrite lookup_empty.
  - now rewrite lookup_singleton_eq.
Qed.
End RegisterAll.

(** *** The layout theorems at work *)

Lemma RegisterVolume_known_node_witness :
  @RegisterVolume demo_storage (RegisterVolume layout0 (vol1 10 false) 7%nat)
                  (vol1 5000 true) 7%nat
  = RegisterVolume layout0 (vol1 10 false) 7%nat.
Proof.
  apply (@RegisterVolume_known_node demo_storage).
  vm_compute. apply list_elem_of_here.
Defined.

Lemma Lookup_after_RegisterVolume_witness :
  @Lookup demo_storage (RegisterVolume layout0 (vol1 10 false) 7%nat) 2
  = Lookup layout0 2.
Proof.
  apply (proj2 (@Lookup_after_RegisterVolume demo_storage layout0 (vol1 10 false) 7%nat)).
  simpl. lia.
Defined.

Lemma SetVolumeAvailable_result_witness :
  exists vl' b,
    @SetVolumeAvailable demo_storage (RegisterVolume layout0 (vol1 2000 false) 7%nat)
                        8%nat 1 = Some (vl', b) /\
    (b = true <-> (1 ∉ writables (RegisterVolume layout0 (vol1 2000 false) 7%nat))
                  /\ 1 ∈ writables vl').
Proof.
  destruct (@SetVolumeAvailable demo_storage
              (RegisterVolume layout0 (vol1 2000 false) 7%nat) 8%nat 1)
    as [[vl' b]|] eqn:E; [|vm_compute in E; discriminate].
  exists vl', b. split; [reflexivity|].
  exact (proj1 (proj2 (@SetVolumeAvailable_result demo_storage _ _ _ _ _ E))).
Defined.

Lemma writable_set_has_no_duplicates_witness :
  NoDup (writables (@RegisterVolume demo_storage layout0 (vol1 10 false) 7%nat)).
Proof.
  apply (@writable_set_has_no_duplicates demo_storage 1 1000 5
           [LRegister (vol1 10 false) 7%nat]).
  - repeat constructor.
  - reflexivity.
Defined.

Lemma PickForWrite_in_reachable_state_witness :
  (writables (@RegisterVolume demo_storage layout0 (vol1 10 false) 7%nat) = [] /\
   PickForWrite (RegisterVolume layout0 (vol1 10 false) 7%nat) 3 5
     = (None, 0, None, Some err_no_writable)) \/
  (exists vid locs,
     PickForWrite (RegisterVolume layout0 (vol1 10 false) 7%nat) 3 5
       = (Some vid, 3, Some locs, None) /\
     vid ∈ writables (RegisterVolume layout0 (vol1 10 false) 7%nat) /\
     vid2location (RegisterVolume layout0 (vol1 10 false) 7%nat) !! vid = Some locs /\
     vll_Length locs >= 1).
Proof.
  apply (@PickForWrite_in_reachable_state demo_storage 1 1000 5
           [LRegister (vol1 10 false) 7%nat]).
  - repeat constructor.
  - reflexivity.
Defined.

Lemma SetVolumeCapacityFull_removes_witness :
  1 ∉ writables (fst (@SetVolumeCapacityFull demo_storage
                        (RegisterVolume layout0 (vol1 10 false) 7%nat) 1)).
Proof.
  apply (@SetVolumeCapacityFull_removes demo_storage 1 1000 5
           [LRegister (vol1 10 false) 7%nat]).
  - repeat constructor.
  - reflexivity.
Defined.

Lemma SetVolumeUnavailable_result_witness :
  exists vl' b,
    @SetVolumeUnavailable demo_storage (RegisterVolume layout0 (vol1 10 false) 7%nat)
                          7%nat 1 = Some (vl', b) /\
    (Z.of_nat (length (nodes_of vl' 1)) < 1 -> 1 ∉ writables vl').
Proof.
  destruct (@SetVolumeUnavailable demo_storage
              (RegisterVolume layout0 (vol1 10 false) 7%nat) 7%nat 1)
    as [[vl' b]|] eqn:E; [|vm_compute in E; discriminate].
  exists vl', b. split; [reflexivity|].
  refine (proj1 (proj2 (@SetVolumeUnavailable_result demo_storage 1 1000 5
                          [LRegister (vol1 10 false) 7%nat] _ vl' 7%nat 1 b _ _ E _))).
  - repeat constructor.
  - reflexivity.
  - vm_compute. apply list_elem_of_here.
Defined.

Lemma registration_threshold_witness :
  writables (@register_all demo_storage (@NewVolumeLayout demo_storage 3 1000 5)
               (@mkVolumeInfo demo_storage 4 10 3 2 false) [7%nat; 8%nat; 9%nat])
  = [4].
Proof.
  assert (Hnd : NoDup [7%nat; 8%nat; 9%nat]) by compute_done.
  rewrite (proj2 (@registration_threshold demo_storage 3 1000 5
                    (@mkVolumeInfo demo_storage 4 10 3 2 false)
                    [7%nat; 8%nat; 9%nat] Hnd)).
  reflexivity.
Defined.

(* ===================================================================== *)
(** ** The upload client *)
(* ===================================================================== *)

Lemma string_cons_app (c : ascii) (a b : string) :
  String c a +:+ b = String c (a +:+ b).
Proof. reflexivity. Qed.

Lemma read_quoted_escaped (filename rest : string) :
  read_quoted (fileNameEscaper_Replace filename +:+ String dquote rest)
  = Some (filename, rest).
Proof.
  induction filename as [|c s IH].
  - change (read_quoted (String dquote rest) = Some (EmptyString, rest)).
    cbn [read_quoted]. destruct (decide (dquote = dquote)); [reflexivity | contradiction].
  - cbn [fileNameEscaper_Replace].
    destruct (decide (c = backslash)) as [->|Hb];
      [|destruct (decide (c = dquote)) as [->|Hq]];
      rewrite !string_cons_app; cbn [read_quoted].
    + destruct (decide (backslash = dquote)) as [Heq|_]; [discriminate Heq|].
      destruct (decide (backslash = backslash)) as [_|Hne]; [|contradiction].
      now rewrite IH.
    + destruct (decide (backslash = dquote)) as [Heq|_]; [discriminate Heq|].
      destruct (decide (backslash = backslash)) as [_|Hne]; [|contradiction].
      now rewrite IH.
    + destruct (decide (c = dquote)) as [Heq|_]; [contradiction|].
      destruct (decide (c = backslash)) as [Heq|_]; [contradiction|].
      now rewrite IH.
Qed.

(** X21.  The file name placed in the Content-Disposition header can be
    read back: scanning the escaped name as a quoted string, with
    backslash as the escape byte, stops at the quote that
    [upload_content] appends and yields the original name, whatever
    quotes and backslashes the name contains.  So two different names
    never give the same escaped text, and the header is the fixed prefix
    followed by a quoted string that reads as the file name with nothing
    after it. *)
Theorem escaped_filename_reads_back (filename other rest : string) :
  read_quoted (fileNameEscaper_Replace filename +:+ String dquote rest)
    = Some (filename, rest) /\
  (fileNameEscaper_Replace filename = fileNameEscaper_Replace other -> filename = other) /\
  exists tail,
    content_disposition filename =
      "form-data; name=" +:+ String dquote ("file" +:+ String dquote
        ("; filename=" +:+ String dquote tail)) /\
    read_quoted tail = Some (filename, "").
Proof.
  split; [apply read_quoted_escaped|]. split.
  - intros Heq.
    pose proof (read_quoted_escaped filename "") as H1.
    pose proof (read_quoted_escaped other "") as H2.
    rewrite Heq, H2 in H1. congruence.
  - exists (fileNameEscaper_Replace filename +:+ String dquote "").
    split; [reflexivity | apply read_quoted_escaped].
Qed.

Lemma escaped_filename_reads_back_witness :
  String dquote "a" = String dquote "a" /\
  read_quoted (fileNameEscaper_Replace (String dquote "a") +:+ String dquote "x")
    = Some (String dquote "a", "x").
Proof.
  split.
  - exact (proj1 (proj2 (escaped_filename_reads_back
                           (String dquote "a") (String dquote "a") "")) eq_refl).
  - exact (proj1 (escaped_filename_reads_back (String dquote "a") "" "x")).
Defined.

(* ===================================================================== *)
(** ** More on errors: the seek of [Delete], the callback of the walk *)
(* ===================================================================== *)

Lemma Seek_current_file (f f1 : File) (x : nat * option error) :
  file_Seek_current f = (f1, x) -> f_data f1 = f_data f /\ f_pos f1 = f_pos f.
Proof.
  unfold file_Seek_current. destruct (next_outcome f) as [o rest].
  destruct o; intros Heq; inversion Heq; subst; simpl; auto.
Qed.

(** X22.  When [Delete] cannot read the position of the index file, it
    returns an error that carries the message of the seek error and writes
    nothing: the bytes and the position of the file are as before.  The
    key is already gone from the map and its size already added to
    [deletionByteCounter]; [deletionCounter] is not incremented. *)
Theorem Delete_seek_failure (nm : NeedleMap) (key : Z) (f1 : File) (off : nat)
    (e : error) :
  file_Seek_current (indexFile nm) = (f1, (off, Some e)) ->
  let nm' := fst (Delete nm key) in
  snd (Delete nm key)
    = Some (errorString ("cannot get position of indexfile: " +:+ Error e)) /\
  f_data (indexFile nm') = f_data (indexFile nm) /\
  f_pos (indexFile nm') = f_pos (indexFile nm) /\
  Get nm' key = None /\
  DeletedSize nm' = u64 (DeletedSize nm + oldSize_of (Get nm key)) /\
  DeletedCount nm' = DeletedCount nm.
Proof.
  intros Hs. cbv zeta. rewrite (Delete_seek_fails nm key f1 off e Hs).
  destruct (Seek_current_file _ _ _ Hs) as [Hd Hp].
  unfold Get, cm_Get, DeletedSize, DeletedCount. simpl.
  repeat split; try assumption. apply lookup_delete_eq.
Qed.

Lemma Delete_seek_failure_witness :
  snd (Delete (NewNeedleMap (empty_file "1.idx" [IoErr 0 "bad file descriptor"])) 100)
  = Some (errorString "cannot get position of indexfile: bad file descriptor").
Proof.
  exact (proj1 (Delete_seek_failure
                  (NewNeedleMap (empty_file "1.idx" [IoErr 0 "bad file descriptor"]))
                  100 (empty_file "1.idx" []) 0 (PathError "bad file descriptor")
                  eq_refl)).
Defined.

(** X23.  [walkIndexFile] stops with the error that the callback returns:
    when the callback accepts the first records of the log and fails on the
    next one, the walk returns that very error (it is not turned into
    success, whatever error it is) and the state is the one the failing
    call left, so the callback has not been called on any later record. *)
Theorem callback_error_stops_walk {St}
    (fn : St -> Z -> Z -> Z -> St * option error) (r : File) (s s1 s2 : St)
    (pre post : list (Z * Z * Z)) (key offset size : Z) (e : error) :
  no_read_error (f_script r) ->
  complete_records (unread r) = pre ++ (key, offset, size) :: post ->
  walk_records fn s pre = (s1, None) ->
  fn s1 key offset size = (s2, Some e) ->
  exists r', walkIndexFile fn r s = Some (r', s2, Some e).
Proof.
  intros Hok Hrecs Hpre Hfail.
  destruct (walkIndexFile_spec fn r s Hok) as (r' & Hwalk & _).
  exists r'. rewrite Hwalk, Hrecs, walk_records_app, Hpre. simpl.
  rewrite Hfail. reflexivity.
Qed.

Lemma callback_error_stops_walk_witness :
  exists r',
    walkIndexFile stop_at_tombstone (reopen (indexFile scenario_index) [IoShort 20]) []
    = Some (r', [(100, 5, 200)], Some (errorString "tombstone")).
Proof.
  apply (callback_error_stops_walk stop_at_tombstone
           (reopen (indexFile scenario_index) [IoShort 20]) [] [(100, 5, 200)]
           [(100, 5, 200)] [(100, 5, 200)] [] 100 0 0 (errorString "tombstone")).
  - repeat constructor.
  - vm_compute. reflexivity.
  - reflexivity.
  - reflexivity.
Defined.
